(** * Unicycler: the SeqAn semi-global alignment wrapper (seqan_align.cpp)

    A shallow embedding of [src/seqan_align.cpp] and the properties of its
    result record.

    Conventions of the embedding.
    - A C++ [int] is a [Z].  Signed overflow is undefined behaviour in C++,
      so the model describes the executions in which no [int] overflows
      (alignments and sequences shorter than 2^31 symbols).
    - A [double] is a [spec_float] of the Standard Library at the binary64
      parameters (precision 53, maximal exponent 1024); the operations are
      the IEEE 754 ones with rounding to nearest even.
    - [std::string] is [string], [std::vector] is [list] ([push_back]
      appends at the end), [std::map<std::string, _>] is a [gmap string _].
    - A C++ exception leaving a function is the [Thrown] outcome.
    - Memory is not exhausted: [std::bad_alloc] is not modelled.  Where a
      call may reserve more than the sequences need, the statements say
      only that it does not return.
    - The SeqAn library (seed sets, chaining, banded chain alignment), the
      system clock and [std::to_string(double)] are not part of the
      repository: the entry point takes them as parameters. *)

From Stdlib Require Import ZArith List String Ascii Lia.
From Stdlib Require Import Decimal DecimalFacts DecimalPos DecimalString.
From Stdlib Require Import Floats.SpecFloat.
From Stdlib Require Import Sorting.Sorted.
From stdpp Require Import gmap strings list.

Local Open Scope Z_scope.

(** ** Outcomes: a returned value or a thrown exception *)

Inductive exn : Type :=
| length_error
| out_of_range.

Inductive outcome (A : Type) : Type :=
| Returned (a : A)
| Thrown (e : exn).

Arguments Returned {A} a.
Arguments Thrown {A} e.

#[global] Instance outcome_ret : MRet outcome := fun A a => Returned a.

#[global] Instance outcome_bind : MBind outcome := fun A B f m =>
  match m with
  | Returned a => f a
  | Thrown e => Thrown e
  end.

(** ** The parts of the C++ standard library the code uses *)

(** [std::to_string(int)]: the decimal numeral, with a leading minus sign
    for negative numbers. *)
Definition to_string (n : Z) : string :=
  NilZero.string_of_int (Z.to_int n).

(** The value an [int] takes when it is passed where a [size_t] is expected
    (LP64: 64 bits, so a negative [int] becomes a huge count). *)
Definition size_t_of_int (n : Z) : Z := n mod 2 ^ 64.

Definition size (s : string) : Z := Z.of_nat (String.length s).

(** [s.substr(pos, n)]: throws [std::out_of_range] when [pos > s.size()],
    and otherwise returns the characters [pos, pos + min(n, size - pos)). *)
Definition substr (s : string) (pos n : Z) : outcome string :=
  let pos' := size_t_of_int pos in
  if size s <? pos' then Thrown out_of_range
  else
    let rlen := Z.min (size_t_of_int n) (size s - pos') in
    Returned (substring (Z.to_nat pos') (Z.to_nat rlen) s).

(** [std::vector<Kmer>::max_size()] of libstdc++ on LP64: [PTRDIFF_MAX]
    divided by the size of an element (a [std::string] and two [int]s). *)
Definition vector_max_size : Z := (2 ^ 63 - 1) / 40.

(** [v.reserve(n)] on an empty vector: throws [std::length_error] when the
    count, as a [size_t], exceeds [max_size()]; the capacity it reserves
    otherwise is not observable. *)
Definition reserve (n : Z) : outcome unit :=
  if vector_max_size <? size_t_of_int n then Thrown length_error
  else Returned tt.

(** [s[i]] for [0 <= i]: the character at [i], and the terminating NUL at
    [i = s.size()] (beyond that the C++ access is undefined; the model
    keeps answering NUL). *)
Definition char_at (s : string) (i : nat) : ascii :=
  match String.get i s with
  | Some c => c
  | None => "000"%char
  end.

(** ** Data model *)

Definition Kmer : Type := string * Z * Z.
Abbreviation KmerDict := (gmap string (Z * Z)).
Definition CommonLocation : Type := Z * Z * Z * Z.

Inductive CigarType : Type := MATCH | INSERTION | DELETION | CLIP | NOTHING.

#[global] Instance CigarType_eq_dec : EqDecision CigarType.
Proof. solve_decision. Defined.

(** ** getSeqKmers (lines 303-314) *)

(** The [for] loop: [todo] iterations are left, [i] is the loop counter. *)
Fixpoint getSeqKmers_loop (seq : string) (kSize : Z) (todo : nat) (i : Z)
    (kmers : list Kmer) : outcome (list Kmer) :=
  match todo with
  | O => Returned kmers
  | S todo' =>
      sub ← substr seq i kSize;
      getSeqKmers_loop seq kSize todo' (i + 1) (kmers ++ [(sub, i, i + kSize)])
  end.

Definition getSeqKmers (seq : string) (strLen kSize : Z) : outcome (list Kmer) :=
  let kCount := strLen - kSize in
  _ ← reserve kCount;
  getSeqKmers_loop seq kSize (Z.to_nat kCount) 0 [].

(** ** getCommonLocations (lines 317-347) *)

(** First loop: store every seq1 k-mer in the map, content -> positions. *)
Definition store_s1Kmers (s1Kmers : list Kmer) : KmerDict :=
  foldl (fun (d : KmerDict) (k : Kmer) =>
           let '(s1KmerSeq, kStart, kEnd) := k in
           <[s1KmerSeq := (kStart, kEnd)]> d)
        ∅ s1Kmers.

(** Second loop: look every seq2 k-mer up in the map. *)
Definition lookup_s2Kmers (s1KmerPositions : KmerDict) (s2Kmers : list Kmer)
    : list CommonLocation :=
  foldl (fun (commonLocations : list CommonLocation) (k : Kmer) =>
           let '(s2KmerSeq, s2Start, s2End) := k in
           match s1KmerPositions !! s2KmerSeq with
           | Some (s1Start, s1End) =>
               commonLocations ++ [(s1Start, s1End, s2Start, s2End)]
           | None => commonLocations
           end)
        [] s2Kmers.

Definition getCommonLocations (s1Kmers s2Kmers : list Kmer) : list CommonLocation :=
  lookup_s2Kmers (store_s1Kmers s1Kmers) s2Kmers.

(** ** getCigarType (lines 265-283) *)

Definition gap : ascii := "-"%char.

Definition getCigarType (b1 b2 : ascii) (alignmentStarted : bool) : CigarType :=
  if Ascii.eqb b1 gap then
    if alignmentStarted then DELETION else NOTHING
  else if Ascii.eqb b2 gap then
    if alignmentStarted then INSERTION else CLIP
  else MATCH.

(** ** getCigarPart (lines 285-300) *)

Definition getCigarPart (type : CigarType) (length : Z) : string :=
  match type with
  | DELETION => "D" +:+ to_string length
  | INSERTION => "I" +:+ to_string length
  | CLIP => "S" +:+ to_string length
  | MATCH => "M" +:+ to_string length
  | NOTHING => ""
  end.

(** ** vectorToString (lines 253-263) *)

Fixpoint vectorToString_loop (i : Z) (v : list Z) (ss : string) : string :=
  match v with
  | [] => ss
  | x :: v' =>
      let ss := if i =? 0 then ss else ss +:+ ";" in
      vectorToString_loop (i + 1) v' (ss +:+ to_string x)
  end.

Definition vectorToString (v : list Z) : string := vectorToString_loop 0 v "".

(** ** The CIGAR/statistics pass of semiGlobalAlign (lines 121-201) *)

(** The local variables the loop of lines 135-185 reads and writes. *)
Record CigarState : Type := mkCigarState {
  cigarString : string;
  currentCigarType : CigarType;
  currentCigarLength : Z;
  matchCount : Z;
  mismatchCount : Z;
  insertionCount : Z;
  deletionCount : Z;
  s2MismatchPositions : list Z;
  s2InsertionPositions : list Z;
  s2DeletionPositions : list Z;
  s1Start : Z;
  s2Start : Z;
  s1Bases : Z;
  s2Bases : Z;
  alignmentStarted : bool
}.

(** Lines 122-134.  [currentCigarType] is declared without a value; the
    first iteration assigns it before any read, so the placeholder chosen
    here is never observed on a non-empty alignment. *)
Definition cigar_init : CigarState :=
  {| cigarString := "";
     currentCigarType := NOTHING;
     currentCigarLength := 0;
     matchCount := 0; mismatchCount := 0;
     insertionCount := 0; deletionCount := 0;
     s2MismatchPositions := []; s2InsertionPositions := [];
     s2DeletionPositions := [];
     s1Start := -1; s2Start := -1;
     s1Bases := 0; s2Bases := 0;
     alignmentStarted := false |}.

(** One iteration of the loop (lines 137-184), at loop counter [i]. *)
Definition cigar_step (i : Z) (base1 base2 : ascii) (st : CigarState) : CigarState :=
  let starts :=
    negb (Ascii.eqb base1 gap) && negb (Ascii.eqb base2 gap)
    && negb (alignmentStarted st) in
  let s1Start' := if starts then s1Bases st else s1Start st in
  let s2Start' := if starts then s2Bases st else s2Start st in
  let alignmentStarted' := if starts then true else alignmentStarted st in
  let cigarType := getCigarType base1 base2 alignmentStarted' in
  let currentCigarType' := if i =? 0 then cigarType else currentCigarType st in
  let isMatch := bool_decide (cigarType = MATCH) in
  let isDeletion := bool_decide (cigarType = DELETION) in
  let isInsertion := bool_decide (cigarType = INSERTION) in
  let sameBase := Ascii.eqb base1 base2 in
  let sameType := bool_decide (cigarType = currentCigarType') in
  {| cigarString :=
       if sameType then cigarString st
       else cigarString st +:+ getCigarPart currentCigarType' (currentCigarLength st);
     currentCigarType := if sameType then currentCigarType' else cigarType;
     currentCigarLength := if sameType then currentCigarLength st + 1 else 1;
     matchCount :=
       if isMatch && sameBase then matchCount st + 1 else matchCount st;
     mismatchCount :=
       if isMatch && negb sameBase then mismatchCount st + 1 else mismatchCount st;
     insertionCount :=
       if isInsertion then insertionCount st + 1 else insertionCount st;
     deletionCount :=
       if isDeletion then deletionCount st + 1 else deletionCount st;
     s2MismatchPositions :=
       if isMatch && negb sameBase then s2MismatchPositions st ++ [s2Bases st]
       else s2MismatchPositions st;
     s2InsertionPositions :=
       if isInsertion then s2InsertionPositions st ++ [s2Bases st]
       else s2InsertionPositions st;
     s2DeletionPositions :=
       if isDeletion then s2DeletionPositions st ++ [s2Bases st]
       else s2DeletionPositions st;
     s1Start := s1Start';
     s2Start := s2Start';
     s1Bases := if Ascii.eqb base1 gap then s1Bases st else s1Bases st + 1;
     s2Bases := if Ascii.eqb base2 gap then s2Bases st else s2Bases st + 1;
     alignmentStarted := alignmentStarted' |}.

(** The columns the loop visits: [s1Alignment[i]] and [s2Alignment[i]] for
    [0 <= i < alignmentLength]. *)
Definition columns (s1Alignment s2Alignment : string) : list (ascii * ascii) :=
  let alignmentLength := Nat.max (String.length s1Alignment) (String.length s2Alignment) in
  map (fun i => (char_at s1Alignment i, char_at s2Alignment i)) (seq 0 alignmentLength).

(** The loop of lines 135-185 over the remaining columns, from counter [i]. *)
Fixpoint cigar_loop (i : Z) (cols : list (ascii * ascii)) (st : CigarState) : CigarState :=
  match cols with
  | [] => st
  | (base1, base2) :: cols' => cigar_loop (i + 1) cols' (cigar_step i base1 base2 st)
  end.

(** What lines 187-206 compute from the state the loop leaves. *)
Record CigarStats : Type := mkCigarStats {
  out_cigarString : string;
  out_s1Start : Z;
  out_s1End : Z;
  out_s2Start : Z;
  out_s2End : Z;
  out_alignedLength : Z;
  out_matchCount : Z;
  out_mismatchCount : Z;
  out_s2MismatchPositions : list Z;
  out_insertionCount : Z;
  out_s2InsertionPositions : list Z;
  out_deletionCount : Z;
  out_s2DeletionPositions : list Z;
  out_editDistance : Z;
  out_percentIdentity : spec_float
}.

(** ** Doubles *)

Definition double : Type := spec_float.
Definition double_of_int (n : Z) : double := binary_normalize 53 1024 n 0 false.
Definition dadd : double -> double -> double := SFadd 53 1024.
Definition dsub : double -> double -> double := SFsub 53 1024.
Definition dmul : double -> double -> double := SFmul 53 1024.
Definition ddiv : double -> double -> double := SFdiv 53 1024.
(** [a < b] and [a > b] of C++: false when either side is a NaN. *)
Definition dlt (a b : double) : bool :=
  match SFcompare a b with Some Lt => true | _ => false end.
Definition dgt (a b : double) : bool :=
  match SFcompare a b with Some Gt => true | _ => false end.
Definition deq (a b : double) : bool :=
  match SFcompare a b with Some Eq => true | _ => false end.
Definition dle (a b : double) : bool :=
  match SFcompare a b with Some (Lt | Eq) => true | _ => false end.

(** The doubles 0.1 and -0.5. *)
Definition one_tenth : double := ddiv (double_of_int 1) (double_of_int 10).
Definition minus_half : double := ddiv (double_of_int (-1)) (double_of_int 2).

(** The trailing-run correction and the derived statistics (lines 187-206). *)
Definition cigar_finish (st : CigarState) : CigarStats :=
  let s1End := s1Bases st in
  let s2End := s2Bases st in
  let isIns := bool_decide (currentCigarType st = INSERTION) in
  let isDel := bool_decide (currentCigarType st = DELETION) in
  let currentCigarType' :=
    if isIns then CLIP else if isDel then NOTHING else currentCigarType st in
  let insertionCount' :=
    if isIns then insertionCount st - currentCigarLength st else insertionCount st in
  let s1End' := if isIns then s1End - currentCigarLength st else s1End in
  let deletionCount' :=
    if negb isIns && isDel then deletionCount st - currentCigarLength st
    else deletionCount st in
  let s2End' :=
    if negb isIns && isDel then s2End - currentCigarLength st else s2End in
  let cigarString' :=
    cigarString st +:+ getCigarPart currentCigarType' (currentCigarLength st) in
  let editDistance := mismatchCount st + insertionCount' + deletionCount' in
  let alignedLength :=
    matchCount st + mismatchCount st + insertionCount' + deletionCount' in
  let percentIdentity :=
    ddiv (dmul (double_of_int 100) (double_of_int (matchCount st)))
         (double_of_int alignedLength) in
  {| out_cigarString := cigarString';
     out_s1Start := s1Start st;
     out_s1End := s1End';
     out_s2Start := s2Start st;
     out_s2End := s2End';
     out_alignedLength := alignedLength;
     out_matchCount := matchCount st;
     out_mismatchCount := mismatchCount st;
     out_s2MismatchPositions := s2MismatchPositions st;
     out_insertionCount := insertionCount';
     out_s2InsertionPositions := s2InsertionPositions st;
     out_deletionCount := deletionCount';
     out_s2DeletionPositions := s2DeletionPositions st;
     out_editDistance := editDistance;
     out_percentIdentity := percentIdentity |}.

(** Lines 121-206 as one function of the columns, and of the two rows. *)
Definition cigar_stats_of (cols : list (ascii * ascii)) : CigarStats :=
  cigar_finish (cigar_loop 0 cols cigar_init).

Definition cigar_stats (s1Alignment s2Alignment : string) : CigarStats :=
  cigar_stats_of (columns s1Alignment s2Alignment).

(** ** The record string (lines 209-224) *)

Definition finalString (to_string_double : double -> string) (r : CigarStats)
    (milliseconds : Z) : string :=
  out_cigarString r +:+ "," +:+
  to_string (out_s1Start r) +:+ "," +:+
  to_string (out_s1End r) +:+ "," +:+
  to_string (out_s2Start r) +:+ "," +:+
  to_string (out_s2End r) +:+ "," +:+
  to_string (out_alignedLength r) +:+ "," +:+
  to_string (out_matchCount r) +:+ "," +:+
  to_string (out_mismatchCount r) +:+ "," +:+
  vectorToString (out_s2MismatchPositions r) +:+ "," +:+
  to_string (out_insertionCount r) +:+ "," +:+
  vectorToString (out_s2InsertionPositions r) +:+ "," +:+
  to_string (out_deletionCount r) +:+ "," +:+
  vectorToString (out_s2DeletionPositions r) +:+ "," +:+
  to_string (out_editDistance r) +:+ "," +:+
  to_string_double (out_percentIdentity r) +:+ "," +:+
  to_string milliseconds.

(** ** What semiGlobalAlign takes from outside the repository *)

(** [Seed<Simple>]: the constructor takes (beginH, beginV, endH, endV). *)
Record TSeed : Type := mkSeed {
  beginPositionH : Z;
  beginPositionV : Z;
  endPositionH : Z;
  endPositionV : Z
}.

(** The SeqAn calls, the two clock readings the result depends on, and
    [std::to_string(double)].
    - [addSeed_Merge set seed d] is [addSeed(set, seed, d, Merge())]: the
      updated set and the returned flag;
    - [addSeed_Single set seed] is [addSeed(set, seed, Single())];
    - [bandedChainAlignment s1 s2 chain scoring bandSize] is the banded
      chain alignment of the two sequences under the all-free-end-gaps
      configuration, as the two rows streamed to strings (gaps are ['-']). *)
Class External : Type := {
  TSeedSet : Type;
  emptySeedSet : TSeedSet;
  addSeed_Merge : TSeedSet -> TSeed -> Z -> TSeedSet * bool;
  addSeed_Single : TSeedSet -> TSeed -> TSeedSet;
  chainSeedsGlobally : TSeedSet -> list TSeed;
  bandedChainAlignment :
    string -> string -> list TSeed -> Z * Z * Z -> Z -> string * string;
  to_string_double : double -> string;
  time1 : Z;
  time7 : Z
}.

Section SemiGlobalAlign.
Context {ext : External}.

(** Lines 63-70: every common location becomes a seed, merged into the
    set when SeqAn can, added on its own otherwise. *)
Definition addSeeds (commonLocations : list CommonLocation) : TSeedSet :=
  foldl (fun (seedSet : TSeedSet) (l : CommonLocation) =>
           let '(l0, l1, l2, l3) := l in
           let seed := mkSeed l0 l2 l1 l3 in
           let '(seedSet', merged) := addSeed_Merge seedSet seed 1 in
           if merged then seedSet' else addSeed_Single seedSet' seed)
        emptySeedSet commonLocations.

(** [seedChain[i]]; reading past the end is undefined in C++, the model
    answers a zero seed there (the code never does it). *)
Definition seed_at (seedChain : list TSeed) (i : Z) : TSeed :=
  default (mkSeed 0 0 0 0) (seedChain !! Z.to_nat i).

(** Lines 85-87. *)
Definition seq1Span (seedChain : list TSeed) : Z :=
  let seedsInChain := Z.of_nat (length seedChain) in
  endPositionH (seed_at seedChain (seedsInChain - 1))
  - beginPositionH (seed_at seedChain 0).

Definition seq2Span (seedChain : list TSeed) : Z :=
  let seedsInChain := Z.of_nat (length seedChain) in
  endPositionV (seed_at seedChain (seedsInChain - 1))
  - beginPositionV (seed_at seedChain 0).

(** Lines 90-92. *)
Definition ratio (seedChain : list TSeed) : double :=
  ddiv (double_of_int (seq1Span seedChain)) (double_of_int (seq2Span seedChain)).

Definition minRatio (allowedLengthDiscrepancy : double) : double :=
  dsub (double_of_int 1) allowedLengthDiscrepancy.

Definition maxRatio (allowedLengthDiscrepancy : double) : double :=
  dadd (double_of_int 1) allowedLengthDiscrepancy.

(** The test of line 93. *)
Definition ratio_out_of_tolerance (seedChain : list TSeed)
    (allowedLengthDiscrepancy : double) : bool :=
  dlt (ratio seedChain) (minRatio allowedLengthDiscrepancy)
  || dgt (ratio seedChain) (maxRatio allowedLengthDiscrepancy).

(** Lines 63-78: from the common locations to the seed chain. *)
Definition seedChain_of (commonLocations : list CommonLocation) : list TSeed :=
  chainSeedsGlobally (addSeeds commonLocations).

(** Lines 98-115: the two aligned rows as strings. *)
Definition alignment_rows (s1 s2 : string) (seedChain : list TSeed) (bandSize : Z)
    : string * string :=
  bandedChainAlignment s1 s2 seedChain (1, -1, -1) bandSize.

(** Lines 96-236: the banded alignment of an accepted chain and the record
built from it. *)
Definition align_banded (s1 s2 : string) (seedChain : list TSeed) (bandSize : Z)
    : string :=
  let '(s1Alignment, s2Alignment) := alignment_rows s1 s2 seedChain bandSize in
  let alignmentLength := Z.max (size s1Alignment) (size s2Alignment) in
  if alignmentLength =? 0 then ""
  else
    let milliseconds := time7 - time1 in
    finalString to_string_double (cigar_stats s1Alignment s2Alignment) milliseconds.

(** Lines 82-236, once the seed chain is there. *)
Definition align_chain (s1 s2 : string) (seedChain : list TSeed) (bandSize : Z)
    (allowedLengthDiscrepancy : double) : string :=
  if Z.of_nat (length seedChain) =? 0 then ""
  else if seq2Span seedChain =? 0 then ""
  else if ratio_out_of_tolerance seedChain allowedLengthDiscrepancy then ""
  else align_banded s1 s2 seedChain bandSize.

(** semiGlobalAlign (lines 50-236). *)
Definition semiGlobalAlign (s1 s2 : string) (s1Len s2Len kSize bandSize : Z)
    (allowedLengthDiscrepancy : double) : outcome string :=
  s1Kmers ← getSeqKmers s1 s1Len kSize;
  s2Kmers ← getSeqKmers s2 s2Len kSize;
  let commonLocations := getCommonLocations s1Kmers s2Kmers in
  let seedChain := seedChain_of commonLocations in
  mret (align_chain s1 s2 seedChain bandSize allowedLengthDiscrepancy).

(** The seed chain and the aligned rows semiGlobalAlign works with, as
functions of its arguments (lines 55-78 and 98-115). *)
Definition input_seedChain (s1 s2 : string) (s1Len s2Len kSize : Z)
    : outcome (list TSeed) :=
  s1Kmers ← getSeqKmers s1 s1Len kSize;
  s2Kmers ← getSeqKmers s2 s2Len kSize;
  mret (seedChain_of (getCommonLocations s1Kmers s2Kmers)).

Definition input_rows (s1 s2 : string) (s1Len s2Len kSize bandSize : Z)
    : outcome (string * string) :=
  seedChain ← input_seedChain s1 s2 s1Len s2Len kSize;
  mret (alignment_rows s1 s2 seedChain bandSize).

End SemiGlobalAlign.

(** ** Vocabulary of the statements

    Nothing below is executed by the program: these are the notions the
    properties are stated with. *)

(** A column aligns two bases when neither row has a gap there. *)
Definition both_bases (col : ascii * ascii) : bool :=
  negb (Ascii.eqb col.1 gap) && negb (Ascii.eqb col.2 gap).

(** The kind of every column, left to right; [started] tells whether a
    column with two bases was seen before. *)
Fixpoint classify (started : bool) (cols : list (ascii * ascii)) : list CigarType :=
  match cols with
  | [] => []
  | col :: cols' =>
      let started' := started || both_bases col in
      getCigarType col.1 col.2 started' :: classify started' cols'
  end.

(** Run-length encoding, most recent run first. *)
Definition rle_push (acc : list (CigarType * Z)) (t : CigarType) : list (CigarType * Z) :=
  match acc with
  | (t', n) :: acc' => if bool_decide (t = t') then (t', n + 1) :: acc' else (t, 1) :: acc
  | [] => [(t, 1)]
  end.

Definition rle_rev (ts : list CigarType) : list (CigarType * Z) :=
  foldl rle_push [] ts.

(** The runs of an alignment, in order. *)
Definition runs_of (cols : list (ascii * ascii)) : list (CigarType * Z) :=
  rev (rle_rev (classify false cols)).

(** The kind under which the last run is reported. *)
Definition reclassify_trailing (t : CigarType) : CigarType :=
  match t with
  | INSERTION => CLIP
  | DELETION => NOTHING
  | _ => t
  end.

(** The runs as the CIGAR reports them: the last one reclassified. *)
Definition reported_runs (cols : list (ascii * ascii)) : list (CigarType * Z) :=
  match rle_rev (classify false cols) with
  | [] => []
  | (t, n) :: acc => rev acc ++ [(reclassify_trailing t, n)]
  end.

(** All runs rendered one after the other. *)
Definition render (runs : list (CigarType * Z)) : string :=
  foldr (fun r s => getCigarPart r.1 r.2 +:+ s) "" runs.

(** The total length of the runs of one kind. *)
Definition run_total (t : CigarType) (runs : list (CigarType * Z)) : Z :=
  foldr (fun r acc => if bool_decide (r.1 = t) then r.2 + acc else acc) 0 runs.

(** The number of columns of one kind. *)
Definition kind_count (t : CigarType) (ts : list CigarType) : Z :=
  Z.of_nat (length (filter (fun t' => t' = t) ts)).

(** The number of bases (non-gap symbols) of each row. *)
Definition row1_bases (cols : list (ascii * ascii)) : Z :=
  Z.of_nat (length (filter (fun col => Ascii.eqb col.1 gap = false) cols)).

Definition row2_bases (cols : list (ascii * ascii)) : Z :=
  Z.of_nat (length (filter (fun col => Ascii.eqb col.2 gap = false) cols)).

(** The operation letter of a kind; [NOTHING] has none. *)
Definition op_letter (t : CigarType) : option ascii :=
  match t with
  | MATCH => Some "M"%char
  | INSERTION => Some "I"%char
  | DELETION => Some "D"%char
  | CLIP => Some "S"%char
  | NOTHING => None
  end.

(** The tokens of a run list: a letter and a length for every run that has
    a letter. *)
Definition tokens_of (runs : list (CigarType * Z)) : list (ascii * Z) :=
  omap (fun r => (fun c => (c, r.2)) <$> op_letter r.1) runs.

(** A token written letter first, and written length first. *)
Definition letter_first (tok : ascii * Z) : string :=
  String tok.1 (to_string tok.2).

Definition length_first (tok : ascii * Z) : string :=
  to_string tok.2 +:+ String tok.1 "".

Definition concat_tokens (fmt : ascii * Z -> string) (toks : list (ascii * Z)) : string :=
  foldr (fun tok s => fmt tok +:+ s) "" toks.

(** A well-formed token: one of the four letters, and a positive length. *)
Definition token_ok (tok : ascii * Z) : Prop :=
  tok.1 ∈ ["M"; "I"; "D"; "S"]%char ∧ 1 ≤ tok.2.

(** The text of a record before its first comma. *)
Fixpoint first_field (s : string) : string :=
  match s with
  | EmptyString => EmptyString
  | String c s' => if Ascii.eqb c ","%char then EmptyString else String c (first_field s')
  end.

(** Reading a CIGAR written letter first: a letter, then the digits of a
    length, repeatedly.  [cur] is the token being read: its letter and the
    digits met so far, last digit first. *)
Definition parse_flush (toks : list (ascii * Z)) (cur : option (ascii * uint))
    : option (list (ascii * Z)) :=
  match cur with
  | None => Some toks
  | Some (_, Nil) => None
  | Some (c, digits) => Some (toks ++ [(c, Z.of_uint (Decimal.rev digits))])
  end.

Fixpoint parse_cigar_loop (s : string) (toks : list (ascii * Z))
    (cur : option (ascii * uint)) : option (list (ascii * Z)) :=
  match s with
  | EmptyString => parse_flush toks cur
  | String ch s' =>
      match cur with
      | None =>
          match uint_of_char ch (Some Nil) with
          | Some _ => None
          | None => parse_cigar_loop s' toks (Some (ch, Nil))
          end
      | Some (c, digits) =>
          match uint_of_char ch (Some digits) with
          | Some digits' => parse_cigar_loop s' toks (Some (c, digits'))
          | None =>
              match parse_flush toks cur with
              | Some toks' => parse_cigar_loop s' toks' (Some (ch, Nil))
              | None => None
              end
          end
      end
  end.

Definition parse_cigar (s : string) : option (list (ascii * Z)) :=
  parse_cigar_loop s [] None.

(** The total length of the tokens of one letter. *)
Definition token_total (c : ascii) (toks : list (ascii * Z)) : Z :=
  foldr (fun tok acc => if bool_decide (tok.1 = c) then tok.2 + acc else acc) 0 toks.

(** The amount the trailing-run correction subtracts for kind [t], when the
    last run has kind [last] and length [n]. *)
Definition trailing_cut (t last : CigarType) (n : Z) : Z :=
  if bool_decide (last = t) then n else 0.

(** A text without a comma is its own first field. *)
Definition no_comma (s : string) : Prop := first_field s = s.

(** No column of a pairwise alignment has a gap in both rows. *)
Definition no_double_gap (col : ascii * ascii) : Prop :=
  Ascii.eqb col.1 gap = false \/ Ascii.eqb col.2 gap = false.

(** What holds of the loop state once the columns [p] are processed. *)
Record loop_inv (p : list (ascii * ascii)) (st : CigarState) : Prop := {
  inv_started : alignmentStarted st = existsb both_bases p;
  inv_runs :
    match rle_rev (classify false p) with
    | [] => cigarString st = ""%string /\ currentCigarLength st = 0
    | (t, n) :: acc =>
        currentCigarType st = t /\ currentCigarLength st = n
        /\ cigarString st = render (rev acc)
    end;
  inv_match :
    matchCount st + mismatchCount st = kind_count MATCH (classify false p);
  inv_nonneg : 0 <= matchCount st /\ 0 <= mismatchCount st;
  inv_ins : insertionCount st = kind_count INSERTION (classify false p);
  inv_del : deletionCount st = kind_count DELETION (classify false p);
  inv_mis_pos : Z.of_nat (length (s2MismatchPositions st)) = mismatchCount st;
  inv_ins_pos : Z.of_nat (length (s2InsertionPositions st)) = insertionCount st;
  inv_del_pos : Z.of_nat (length (s2DeletionPositions st)) = deletionCount st;
  inv_s1Bases : s1Bases st = row1_bases p;
  inv_s2Bases : s2Bases st = row2_bases p;
  inv_not_started :
    alignmentStarted st = false ->
    s1Start st = -1 /\ s2Start st = -1
    /\ kind_count MATCH (classify false p) = 0
    /\ kind_count INSERTION (classify false p) = 0
    /\ kind_count DELETION (classify false p) = 0;
  inv_coords :
    Forall no_double_gap p -> alignmentStarted st = true ->
    s1Bases st - s1Start st
    = kind_count MATCH (classify false p) + kind_count INSERTION (classify false p)
    /\ s2Bases st - s2Start st
       = kind_count MATCH (classify false p) + kind_count DELETION (classify false p)
}.

(** The shapes a rounded result can take, [c] being the canonical exponent
    of the exact value and [normal] telling that it is above the subnormal
    range. *)
Inductive round_shape (s : bool) (c : Z) (normal : Prop) : spec_float -> Prop :=
| shape_same (m : positive) :
    Z.pos m < 2 ^ 53 -> c <= 971 -> (normal -> 2 ^ 52 <= Z.pos m) ->
    round_shape s c normal (S754_finite s m c)
| shape_carry (m : positive) :
    Z.pos m = 2 ^ 52 -> c + 1 <= 971 ->
    round_shape s c normal (S754_finite s m (c + 1))
| shape_zero : ~ normal -> round_shape s c normal (S754_zero s)
| shape_overflow : 971 <= c -> round_shape s c normal (S754_infinity s).

(** ** cppStringToCString (lines 245-251) *)

(** The contents of the buffer it allocates and fills:
    [cpp_string.size() + 1] characters, of which the last is the
    terminating NUL.  (The model says nothing of a failed [malloc].) *)
Definition NUL : ascii := "000"%char.

Definition cppStringToCString (cpp_string : string) : list ascii :=
  list_ascii_of_string cpp_string ++ [NUL].

(** ** Vocabulary of the further properties *)

(** What a reader of a C string gets from a buffer: the characters before
    the first NUL. *)
Fixpoint read_c_string (buffer : list ascii) : string :=
  match buffer with
  | [] => EmptyString
  | c :: buffer' =>
      if Ascii.eqb c NUL then EmptyString else String c (read_c_string buffer')
  end.

(** A text cut at every occurrence of a separator. *)
Fixpoint split_on (sep : ascii) (s : string) : list string :=
  match s with
  | EmptyString => [EmptyString]
  | String c s' =>
      if Ascii.eqb c sep then EmptyString :: split_on sep s'
      else
        match split_on sep s' with
        | field :: fields => String c field :: fields
        | [] => [String c EmptyString]
        end
  end.

(** A text in which a character does not occur. *)
Fixpoint lacks (c : ascii) (s : string) : Prop :=
  match s with
  | EmptyString => True
  | String c' s' => c' <> c /\ lacks c s'
  end.

(** Reading a position field back: the empty text is the empty list, any
    other text is cut at the semicolons and every piece read as a decimal
    numeral. *)
Definition read_int (s : string) : option Z :=
  Z.of_int <$> NilZero.int_of_string s.

Definition read_positions (s : string) : option (list Z) :=
  match s with
  | EmptyString => Some []
  | _ => mapM read_int (split_on ";" s)
  end.

(** The numerals of a list, each one preceded by a semicolon. *)
Definition semicolon_tail (v : list Z) : string :=
  foldr (fun x s => ";" +:+ to_string x +:+ s) "" v.

(** The seq2 offsets of the columns that [sel] selects, in column order:
    the offset of a column is the number of seq2 bases to its left; [sel]
    sees the kind of the column and its two symbols. *)
Definition offsets_where (sel : CigarType -> ascii * ascii -> bool)
    (cols : list (ascii * ascii)) : list Z :=
  omap (fun i : nat =>
          match classify false cols !! i, cols !! i with
          | Some t, Some col =>
              if sel t col then Some (row2_bases (take i cols)) else None
          | _, _ => None
          end)
       (seq 0 (length cols)).

Definition is_mismatch (t : CigarType) (col : ascii * ascii) : bool :=
  bool_decide (t = MATCH) && negb (Ascii.eqb col.1 col.2).

Definition is_match (t : CigarType) (col : ascii * ascii) : bool :=
  bool_decide (t = MATCH) && Ascii.eqb col.1 col.2.

Definition is_kind (k t : CigarType) (col : ascii * ascii) : bool :=
  bool_decide (t = k).

(** What holds of the position lists in every state of the loop. *)
Record lists_inv (st : CigarState) : Prop := {
  li_mis_sorted : StronglySorted Z.lt (s2MismatchPositions st);
  li_mis_bound :
    Forall (fun x => s2Start st <= x < s2Bases st) (s2MismatchPositions st);
  li_ins_sorted : StronglySorted Z.le (s2InsertionPositions st);
  li_ins_bound :
    Forall (fun x => s2Start st < x <= s2Bases st) (s2InsertionPositions st);
  li_del_sorted : StronglySorted Z.le (s2DeletionPositions st);
  li_del_bound :
    Forall (fun x => s2Start st < x <= s2Bases st) (s2DeletionPositions st);
  li_unstarted :
    alignmentStarted st = false ->
    s2MismatchPositions st = [] /\ s2InsertionPositions st = []
    /\ s2DeletionPositions st = [];
  li_started : alignmentStarted st = true -> 0 <= s2Start st < s2Bases st;
  li_bases : 0 <= s2Bases st
}.

(** A row without its gap symbols: the part of a sequence it spells. *)
Fixpoint without_gaps (row : string) : string :=
  match row with
  | EmptyString => EmptyString
  | String c row' =>
      if Ascii.eqb c gap then without_gaps row' else String c (without_gaps row')
  end.

(** The number of columns with a gap in both rows that come after a column
    with a base in both rows; [started] tells whether such a column was
    seen before.  A pairwise alignment has no column with two gaps. *)
Fixpoint double_gaps_after_start (started : bool) (cols : list (ascii * ascii)) : Z :=
  match cols with
  | [] => 0
  | col :: cols' =>
      let started' := started || both_bases col in
      (if started' && Ascii.eqb col.1 gap && Ascii.eqb col.2 gap then 1 else 0)
      + double_gaps_after_start started' cols'
  end.

(** ** A scripted instance of the outside world

    The seed chain and the aligned rows are given in advance; seeds are
    kept in a list; the clock stands still. *)

(** [printf("%f")] of a finite double: six decimals, the exact value
    rounded to nearest, ties to even.  The spelling of a NaN depends on the
    platform; glibc on x86-64 prints the NaN of 0.0/0.0 as [-nan]. *)
Definition printf_f (x : double) : string :=
  match x with
  | S754_nan => "-nan"
  | S754_infinity s => if s then "-inf" else "inf"
  | S754_zero s => if s then "-0.000000" else "0.000000"
  | S754_finite s m e =>
      let num := Z.pos m * 1000000 in
      let scaled :=
        if 0 <=? e then num * 2 ^ e
        else
          let den := 2 ^ (- e) in
          let q := num / den in
          let r := num mod den in
          match 2 * r ?= den with
          | Lt => q
          | Gt => q + 1
          | Eq => if Z.even q then q else q + 1
          end in
      let frac := to_string (scaled mod 1000000) in
      (if s then "-" else "") +:+ to_string (scaled / 1000000) +:+ "." +:+
      substring 0 (6 - String.length frac) "000000" +:+ frac
  end.

Definition scripted (seedChain : list TSeed) (rows : string * string) : External :=
  {| TSeedSet := list TSeed;
     emptySeedSet := [];
     addSeed_Merge := fun seedSet _ _ => (seedSet, false);
     addSeed_Single := fun seedSet seed => seedSet ++ [seed];
     chainSeedsGlobally := fun _ => seedChain;
     bandedChainAlignment := fun _ _ _ _ _ => rows;
     to_string_double := printf_f;
     time1 := 0;
     time7 := 0 |}.

(** * Properties *)

(** ** getCommonLocations *)

Lemma store_s1Kmers_snoc (l : list Kmer) (k : Kmer) :
  store_s1Kmers (l ++ [k]) = <[k.1.1 := (k.1.2, k.2)]> (store_s1Kmers l).
Proof.
  unfold store_s1Kmers. rewrite foldl_snoc. by destruct k as [[c a] b].
Qed.

Lemma store_s1Kmers_lookup (s1Kmers : list Kmer) (c : string) :
  store_s1Kmers s1Kmers !! c
  = (fun k : Kmer => (k.1.2, k.2)) <$> last (filter (fun k : Kmer => k.1.1 = c) s1Kmers).
Proof.
  induction s1Kmers as [|k l IH] using rev_ind; [done|].
  rewrite store_s1Kmers_snoc, filter_app.
  destruct (decide (k.1.1 = c)) as [Heq|Hne].
  - rewrite filter_cons_True, filter_nil, last_snoc by done. simpl. rewrite <- Heq.
    by rewrite lookup_insert_eq.
  - rewrite filter_cons_False, filter_nil, app_nil_r, <- IH by done.
    by rewrite lookup_insert_ne.
Qed.

Lemma lookup_s2Kmers_acc (d : KmerDict) (s2Kmers : list Kmer) (acc : list CommonLocation) :
  foldl (fun (commonLocations : list CommonLocation) (k : Kmer) =>
           let '(s2KmerSeq, s2Start, s2End) := k in
           match d !! s2KmerSeq with
           | Some (s1Start, s1End) =>
               commonLocations ++ [(s1Start, s1End, s2Start, s2End)]
           | None => commonLocations
           end) acc s2Kmers
  = acc ++ omap (fun k2 : Kmer =>
                   (fun p : Z * Z => (p.1, p.2, k2.1.2, k2.2)) <$> d !! k2.1.1) s2Kmers.
Proof.
  revert acc. induction s2Kmers as [|[[c a] b] l IH]; intros acc; simpl.
  - by rewrite app_nil_r.
  - rewrite IH. destruct (d !! c) as [[x y]|]; simpl; [|done].
    by rewrite <- app_assoc.
Qed.

Lemma omap_pointwise {A B : Type} (f g : A -> option B) (l : list A) :
  (forall x, f x = g x) -> omap f l = omap g l.
Proof.
  intros Hfg. induction l as [|x l IH]; [done|].
  cbn [omap list_omap]. by rewrite Hfg, IH.
Qed.

Lemma getCommonLocations_by_lookup (s1Kmers s2Kmers : list Kmer) :
  getCommonLocations s1Kmers s2Kmers
  = omap (fun k2 : Kmer =>
            (fun p : Z * Z => (p.1, p.2, k2.1.2, k2.2))
              <$> store_s1Kmers s1Kmers !! k2.1.1)
         s2Kmers.
Proof.
  unfold getCommonLocations, lookup_s2Kmers.
  by rewrite lookup_s2Kmers_acc, app_nil_l.
Qed.

(** C9.  The map built from the seq1 k-mers sends a content to the
    positions of the last seq1 k-mer with that content; the result lists,
    in the order of the seq2 k-mers, one common location for every seq2
    k-mer whose content is in the map, pairing the stored seq1 positions
    with the positions of that seq2 k-mer; written out, every seq2 k-mer is
    paired with the last seq1 k-mer of the same content, if there is one. *)
Theorem getCommonLocations_last_wins (s1Kmers s2Kmers : list Kmer) :
  (forall c : string,
     store_s1Kmers s1Kmers !! c
     = (fun k1 : Kmer => (k1.1.2, k1.2))
         <$> last (filter (fun k1 : Kmer => k1.1.1 = c) s1Kmers))
  /\ getCommonLocations s1Kmers s2Kmers
     = omap (fun k2 : Kmer =>
               (fun p : Z * Z => (p.1, p.2, k2.1.2, k2.2))
                 <$> store_s1Kmers s1Kmers !! k2.1.1)
            s2Kmers
  /\ getCommonLocations s1Kmers s2Kmers
     = omap (fun k2 : Kmer =>
               (fun k1 : Kmer => (k1.1.2, k1.2, k2.1.2, k2.2))
                 <$> last (filter (fun k1 : Kmer => k1.1.1 = k2.1.1) s1Kmers))
            s2Kmers.
Proof.
  split; [apply store_s1Kmers_lookup|].
  split; [apply getCommonLocations_by_lookup|].
  rewrite getCommonLocations_by_lookup.
  apply omap_pointwise. intros k2.
  rewrite store_s1Kmers_lookup.
  by destruct (last _).
Qed.

(** A repeat in seq1 contributes its last occurrence only, a repeat in seq2
    one location per occurrence. *)
Example getCommonLocations_repeats :
  getCommonLocations [("AC"%string, 0, 2); ("CA"%string, 1, 3); ("AC"%string, 2, 4)]
                     [("AC"%string, 0, 2); ("CG"%string, 1, 3); ("AC"%string, 5, 7)]
  = [(2, 4, 0, 2); (2, 4, 5, 7)].
Proof. reflexivity. Qed.

(** ** getSeqKmers *)

Lemma size_t_of_int_small (n : Z) : 0 <= n < 2 ^ 64 -> size_t_of_int n = n.
Proof. intros H. unfold size_t_of_int. by rewrite Z.mod_small. Qed.

Lemma substr_in_range (s : string) (pos n : Z) :
  size s < 2 ^ 31 -> 0 <= pos -> 0 <= n -> pos + n <= size s ->
  substr s pos n = Returned (substring (Z.to_nat pos) (Z.to_nat n) s).
Proof.
  intros Hs Hpos Hn Hle. unfold substr.
  rewrite !size_t_of_int_small by lia.
  destruct (Z.ltb_spec (size s) pos); [lia|].
  by rewrite Z.min_l by lia.
Qed.

Lemma getSeqKmers_loop_in_range (s : string) (kSize : Z) (todo i : nat)
    (kmers : list Kmer) :
  size s < 2 ^ 31 -> 0 <= kSize ->
  Z.of_nat i + Z.of_nat todo + kSize <= size s ->
  getSeqKmers_loop s kSize todo (Z.of_nat i) kmers
  = Returned (kmers ++ map (fun j : nat =>
                              (substring j (Z.to_nat kSize) s, Z.of_nat j, Z.of_nat j + kSize))
                           (seq i todo)).
Proof.
  intros Hs Hk. revert i kmers.
  induction todo as [|todo IH]; intros i kmers Hle; simpl.
  - by rewrite app_nil_r.
  - rewrite substr_in_range by lia. simpl.
    replace (Z.of_nat i + 1) with (Z.of_nat (S i)) by lia.
    rewrite IH by lia. rewrite Nat2Z.id, <- app_assoc. done.
Qed.

(** C7 (amended).  For a sequence [s] whose length fits an [int] and
    [0 <= kSize <= length s], getSeqKmers returns, without throwing,
    exactly [length s - kSize] k-mers (none when [kSize] is the length), the
    i-th being the substring at positions [i, i + kSize) together with the
    offsets [i] and [i + kSize]. *)
Theorem getSeqKmers_in_range (s : string) (kSize : Z) :
  size s < 2 ^ 31 -> 0 <= kSize <= size s ->
  exists kmers : list Kmer,
    getSeqKmers s (size s) kSize = Returned kmers
    /\ Z.of_nat (length kmers) = size s - kSize
    /\ kmers = map (fun i : nat =>
                      (substring i (Z.to_nat kSize) s, Z.of_nat i, Z.of_nat i + kSize))
                   (seq 0 (Z.to_nat (size s - kSize))).
Proof.
  intros Hs Hk. eexists. split; [|split; [|reflexivity]].
  - unfold getSeqKmers, reserve.
    rewrite size_t_of_int_small by lia.
    destruct (Z.ltb_spec vector_max_size (size s - kSize)) as [Hlt|_].
    { unfold vector_max_size in Hlt. 
      assert (2 ^ 31 < (2 ^ 63 - 1) / 40) by (vm_compute; done). lia. }
    simpl. change 0 with (Z.of_nat 0).
    rewrite getSeqKmers_loop_in_range by lia. done.
  - rewrite length_map, length_seq. lia.
Qed.

Lemma getSeqKmers_in_range_witness :
  exists kmers : list Kmer,
    getSeqKmers "ACGTA" (size "ACGTA") 3 = Returned kmers
    /\ Z.of_nat (length kmers) = size "ACGTA" - 3
    /\ kmers = map (fun i : nat =>
                      (substring i (Z.to_nat 3) "ACGTA", Z.of_nat i, Z.of_nat i + 3))
                   (seq 0 (Z.to_nat (size "ACGTA" - 3))).
Proof. apply (getSeqKmers_in_range "ACGTA" 3); vm_compute; split; congruence. Defined.

(** With [kSize = 0] the result is not empty: one k-mer of empty content
    per position.  With [kSize] above the length, [reserve] throws. *)
Lemma getSeqKmers_degenerate_counterexample :
  getSeqKmers "AC" 2 0 = Returned [(""%string, 0, 0); (""%string, 1, 1)]
  /\ getSeqKmers "AC" 2 0 <> Returned []
  /\ getSeqKmers "AC" 2 3 = Thrown length_error.
Proof. repeat split. by vm_compute. Qed.

(** The call [reserve(strLen - kSize)] with a negative count: the count
    becomes a [size_t] above [max_size()]. *)
Lemma getSeqKmers_too_long_throws (s : string) (strLen kSize : Z) :
  - 2 ^ 31 <= strLen < 2 ^ 31 -> - 2 ^ 31 <= kSize < 2 ^ 31 -> strLen < kSize ->
  getSeqKmers s strLen kSize = Thrown length_error.
Proof.
  intros H1 H2 Hlt. unfold getSeqKmers, reserve, size_t_of_int.
  assert (Hm : (strLen - kSize) mod 2 ^ 64 = strLen - kSize + 2 ^ 64).
  { symmetry. apply Z.mod_unique with (q := -1); lia. }
  rewrite Hm.
  assert (Hv : vector_max_size < 2 ^ 63) by (vm_compute; done).
  destruct (Z.ltb_spec vector_max_size (strLen - kSize + 2 ^ 64)); [done|lia].
Qed.

(** ** The CIGAR loop: the state after a prefix of the columns *)

Lemma cigar_loop_snoc (i : Z) (p : list (ascii * ascii)) (c : ascii * ascii)
    (st : CigarState) :
  cigar_loop i (p ++ [c]) st
  = cigar_step (i + Z.of_nat (length p)) c.1 c.2 (cigar_loop i p st).
Proof.
  revert i st. induction p as [|[a b] p IH]; intros i st; simpl.
  - destruct c. by rewrite Z.add_0_r.
  - rewrite IH. f_equal. lia.
Qed.

Lemma classify_snoc (b : bool) (p : list (ascii * ascii)) (c : ascii * ascii) :
  classify b (p ++ [c])
  = classify b p ++ [getCigarType c.1 c.2 (b || existsb both_bases p || both_bases c)].
Proof.
  revert b. induction p as [|c0 p IH]; intros b; simpl.
  - by rewrite orb_false_r.
  - rewrite IH. by rewrite !orb_assoc.
Qed.

Lemma kind_count_snoc (t t' : CigarType) (ts : list CigarType) :
  kind_count t (ts ++ [t']) = kind_count t ts + (if bool_decide (t' = t) then 1 else 0).
Proof.
  unfold kind_count. rewrite filter_app, length_app.
  case_bool_decide.
  - rewrite filter_cons_True by done. simpl. lia.
  - rewrite filter_cons_False by done. simpl. lia.
Qed.

Lemma row1_bases_snoc (p : list (ascii * ascii)) (c : ascii * ascii) :
  row1_bases (p ++ [c]) = row1_bases p + (if Ascii.eqb c.1 gap then 0 else 1).
Proof.
  unfold row1_bases. rewrite filter_app, length_app.
  destruct (Ascii.eqb c.1 gap) eqn:E.
  - rewrite filter_cons_False by (rewrite E; done). simpl. lia.
  - rewrite filter_cons_True by done. simpl. lia.
Qed.

Lemma row2_bases_snoc (p : list (ascii * ascii)) (c : ascii * ascii) :
  row2_bases (p ++ [c]) = row2_bases p + (if Ascii.eqb c.2 gap then 0 else 1).
Proof.
  unfold row2_bases. rewrite filter_app, length_app.
  destruct (Ascii.eqb c.2 gap) eqn:E.
  - rewrite filter_cons_False by (rewrite E; done). simpl. lia.
  - rewrite filter_cons_True by done. simpl. lia.
Qed.

Lemma rle_rev_snoc (ts : list CigarType) (t : CigarType) :
  rle_rev (ts ++ [t]) = rle_push (rle_rev ts) t.
Proof. unfold rle_rev. by rewrite foldl_snoc. Qed.

Lemma rle_push_nonempty (acc : list (CigarType * Z)) (t : CigarType) :
  rle_push acc t <> [].
Proof. destruct acc as [|[t' n] acc]; simpl; [done|]. by case_bool_decide. Qed.

Lemma rle_rev_nil (ts : list CigarType) : rle_rev ts = [] -> ts = [].
Proof.
  destruct ts as [|t ts] using rev_ind; [done|].
  rewrite rle_rev_snoc. intros H. by apply rle_push_nonempty in H.
Qed.

Lemma string_app_cons (x : ascii) (a b : string) :
  String x a +:+ b = String x (a +:+ b).
Proof. reflexivity. Qed.

Lemma string_app_nil_l (a : string) : "" +:+ a = a.
Proof. reflexivity. Qed.

Lemma string_app_assoc (a b c : string) : (a +:+ b) +:+ c = a +:+ (b +:+ c).
Proof.
  induction a as [|x a IH]; [done|].
  by rewrite !string_app_cons, IH.
Qed.

Lemma string_app_nil_r (a : string) : a +:+ "" = a.
Proof.
  induction a as [|x a IH]; [done|].
  by rewrite string_app_cons, IH.
Qed.

Lemma render_app (r1 r2 : list (CigarType * Z)) :
  render (r1 ++ r2) = render r1 +:+ render r2.
Proof.
  induction r1 as [|r r1 IH]; simpl; [done|].
  by rewrite IH, string_app_assoc.
Qed.

Lemma render_snoc (r1 : list (CigarType * Z)) (t : CigarType) (n : Z) :
  render (r1 ++ [(t, n)]) = render r1 +:+ getCigarPart t n.
Proof. rewrite render_app. simpl. by rewrite string_app_nil_r. Qed.

Lemma reclassify_trailing_finish (st : CigarState) :
  out_cigarString (cigar_finish st)
  = cigarString st
    +:+ getCigarPart (reclassify_trailing (currentCigarType st)) (currentCigarLength st).
Proof. unfold cigar_finish. simpl. by destruct (currentCigarType st). Qed.

Lemma loop_inv_init : loop_inv [] cigar_init.
Proof. by split. Qed.

Ltac step_cases c st :=
  destruct c as [b1 b2]; unfold cigar_step, getCigarType, both_bases in *; simpl in *;
  destruct (Ascii.eqb b1 gap) eqn:E1, (Ascii.eqb b2 gap) eqn:E2,
    (alignmentStarted st) eqn:Est; simpl in *.

Lemma loop_inv_step (p : list (ascii * ascii)) (c : ascii * ascii) (st : CigarState) :
  loop_inv p st ->
  loop_inv (p ++ [c]) (cigar_step (Z.of_nat (length p)) c.1 c.2 st).
Proof.
  intros [Hst Hruns Hm Hnn Hi Hd Hmp Hip Hdp Hb1 Hb2 Hns Hco].
  assert (Hty : getCigarType c.1 c.2 (false || existsb both_bases p || both_bases c)
                = getCigarType c.1 c.2 (alignmentStarted st || both_bases c)).
  { by rewrite Hst. }
  split.
  - rewrite existsb_app. simpl. rewrite <- Hst, orb_false_r.
    by step_cases c st.
  - rewrite classify_snoc, rle_rev_snoc, Hty.
    destruct p as [|c0 p].
    + simpl in *. destruct Hruns as [Hs Hl]. rewrite Hs, Hl.
      step_cases c st; by rewrite ?bool_decide_eq_true_2.
    + destruct (rle_rev (classify false (c0 :: p))) as [|[t n] acc] eqn:Erle.
      { by apply rle_rev_nil in Erle. }
      destruct Hruns as (Ht & Hn & Hs).
      replace (Z.of_nat (length (c0 :: p)) =? 0) with false
        by (symmetry; apply Z.eqb_neq; simpl; lia).
      unfold rle_push.
      step_cases c st; rewrite ?Ht; case_bool_decide; simpl;
        rewrite ?render_snoc, ?Hs, ?Hn, ?Ht; done.
  - rewrite classify_snoc, kind_count_snoc, Hty, <- Hm.
    step_cases c st; destruct (Ascii.eqb b1 b2); simpl; lia.
  - step_cases c st; destruct (Ascii.eqb b1 b2); simpl; lia.
  - rewrite classify_snoc, kind_count_snoc, Hty, <- Hi.
    step_cases c st; lia.
  - rewrite classify_snoc, kind_count_snoc, Hty, <- Hd.
    step_cases c st; lia.
  - step_cases c st; destruct (Ascii.eqb b1 b2); simpl; rewrite ?length_app; simpl; lia.
  - step_cases c st; rewrite ?length_app; simpl; lia.
  - step_cases c st; rewrite ?length_app; simpl; lia.
  - rewrite row1_bases_snoc, <- Hb1. step_cases c st; lia.
  - rewrite row2_bases_snoc, <- Hb2. step_cases c st; lia.
  - rewrite classify_snoc, !kind_count_snoc, Hty.
    step_cases c st; intros; try done; destruct Hns as (? & ? & ? & ? & ?); try done;
      repeat split; simpl; lia.
  - rewrite classify_snoc, !kind_count_snoc, Hty.
    intros [Hp Hc]%Forall_app. apply Forall_inv in Hc.
    specialize (Hco Hp). unfold no_double_gap in Hc.
    step_cases c st; intros; try done; try (destruct Hc; done).
    all: try (destruct Hco as [? ?]; [done|]; simpl; lia).
    destruct Hns as (? & ? & ? & ? & ?); [done|]. simpl. lia.
Qed.

Lemma loop_inv_loop (p : list (ascii * ascii)) :
  loop_inv p (cigar_loop 0 p cigar_init).
Proof.
  induction p as [|c p IH] using rev_ind; [apply loop_inv_init|].
  rewrite cigar_loop_snoc, Z.add_0_l. by apply loop_inv_step.
Qed.

(** ** Run-length encoding *)

Lemma run_total_app (t : CigarType) (r1 r2 : list (CigarType * Z)) :
  run_total t (r1 ++ r2) = run_total t r1 + run_total t r2.
Proof.
  induction r1 as [|r r1 IH]; simpl; [done|].
  rewrite IH. case_bool_decide; lia.
Qed.

Lemma run_total_rev (t : CigarType) (runs : list (CigarType * Z)) :
  run_total t (rev runs) = run_total t runs.
Proof.
  induction runs as [|r runs IH]; simpl; [done|].
  rewrite run_total_app, IH. simpl. case_bool_decide; lia.
Qed.

Lemma run_total_rle_push (t t' : CigarType) (acc : list (CigarType * Z)) :
  run_total t (rle_push acc t')
  = run_total t acc + (if bool_decide (t' = t) then 1 else 0).
Proof.
  destruct acc as [|[t0 n] acc]; simpl.
  - case_bool_decide; lia.
  - destruct (bool_decide (t' = t0)) eqn:E; simpl.
    + apply bool_decide_eq_true in E. subst t0. case_bool_decide; lia.
    + repeat case_bool_decide; lia.
Qed.

Lemma run_total_rle_rev (t : CigarType) (ts : list CigarType) :
  run_total t (rle_rev ts) = kind_count t ts.
Proof.
  induction ts as [|t' ts IH] using rev_ind; [done|].
  by rewrite rle_rev_snoc, run_total_rle_push, kind_count_snoc, IH.
Qed.

Lemma rle_rev_positive (ts : list CigarType) :
  Forall (fun r : CigarType * Z => 1 <= r.2) (rle_rev ts).
Proof.
  induction ts as [|t' ts IH] using rev_ind; [constructor|].
  rewrite rle_rev_snoc. destruct (rle_rev ts) as [|[t0 n] acc]; simpl.
  - by repeat constructor.
  - inversion IH as [|? ? Hn Hacc]; subst. simpl in Hn.
    case_bool_decide; repeat constructor; simpl; try done; lia.
Qed.

Lemma reported_runs_positive (cols : list (ascii * ascii)) :
  Forall (fun r : CigarType * Z => 1 <= r.2) (reported_runs cols).
Proof.
  unfold reported_runs.
  pose proof (rle_rev_positive (classify false cols)) as H.
  destruct (rle_rev (classify false cols)) as [|[t n] acc]; [constructor|].
  inversion H as [|? ? Hn Hacc]; subst.
  apply Forall_app. split; [by apply Forall_rev|]. by repeat constructor.
Qed.

(** ** The CIGAR string is the rendering of the reported runs *)

Lemma cigar_string_reported (cols : list (ascii * ascii)) :
  out_cigarString (cigar_stats_of cols) = render (reported_runs cols).
Proof.
  destruct cols as [|c cols]; [done|].
  unfold cigar_stats_of, reported_runs.
  rewrite reclassify_trailing_finish.
  destruct (loop_inv_loop (c :: cols)) as [_ Hruns _ _ _ _ _ _ _ _ _ _ _].
  destruct (rle_rev (classify false (c :: cols))) as [|[t n] acc] eqn:Erle.
  - by apply rle_rev_nil in Erle.
  - destruct Hruns as (-> & -> & ->). by rewrite render_snoc.
Qed.

Lemma render_tokens (runs : list (CigarType * Z)) :
  render runs = concat_tokens letter_first (tokens_of runs).
Proof.
  induction runs as [|[t n] runs IH]; [done|].
  unfold tokens_of in *. cbn [render foldr omap list_omap fst snd].
  fold (render runs). rewrite IH.
  by destruct t.
Qed.

Lemma tokens_of_ok (runs : list (CigarType * Z)) :
  Forall (fun r : CigarType * Z => 1 <= r.2) runs ->
  Forall token_ok (tokens_of runs).
Proof.
  induction 1 as [|[t n] runs Hn _ IH]; [constructor|].
  unfold tokens_of in *. cbn [omap list_omap fst snd].
  destruct t; simpl; try done; constructor; try done; split; simpl; try done;
    set_solver.
Qed.

(** ** Numerals and fields *)

Lemma no_comma_cons (c : ascii) (s : string) :
  c <> ","%char -> no_comma s -> no_comma (String c s).
Proof.
  intros Hc Hs. unfold no_comma. simpl.
  destruct (Ascii.eqb_spec c ","%char) as [->|_]; [done|]. by rewrite Hs.
Qed.

Lemma no_comma_app (a b : string) : no_comma a -> no_comma b -> no_comma (a +:+ b).
Proof.
  unfold no_comma. induction a as [|c a IH]; intros Ha Hb; [done|].
  rewrite string_app_cons. simpl in *.
  destruct (Ascii.eqb c ","%char); [done|].
  injection Ha as Ha. by rewrite IH.
Qed.

Lemma first_field_comma (a b : string) :
  no_comma a -> first_field (a +:+ "," +:+ b) = a.
Proof.
  unfold no_comma. induction a as [|c a IH]; intros Ha; [done|].
  rewrite string_app_cons. simpl in *.
  destruct (Ascii.eqb c ","%char); [done|].
  injection Ha as Ha. by rewrite IH.
Qed.

Lemma no_comma_uint (d : uint) : no_comma (NilEmpty.string_of_uint d).
Proof. induction d; simpl; try done; by apply no_comma_cons. Qed.

Lemma no_comma_to_string (n : Z) : no_comma (to_string n).
Proof.
  unfold to_string, NilZero.string_of_int, NilZero.string_of_uint.
  destruct (Z.to_int n) as [d|d]; [|apply no_comma_cons; [done|]];
    destruct d; try done; apply (no_comma_uint (_ _)) || apply no_comma_uint.
Qed.

Lemma no_comma_getCigarPart (t : CigarType) (n : Z) : no_comma (getCigarPart t n).
Proof.
  destruct t; simpl; try done;
    rewrite string_app_cons, string_app_nil_l;
    (apply no_comma_cons; [done|apply no_comma_to_string]).
Qed.

Lemma no_comma_render (runs : list (CigarType * Z)) : no_comma (render runs).
Proof.
  induction runs as [|r runs IH]; [done|].
  simpl. apply no_comma_app; [apply no_comma_getCigarPart|done].
Qed.

Lemma to_string_head (n : Z) :
  0 <= n ->
  exists (c : ascii) (rest : string),
    to_string n = String c rest /\ c ∈ ["0"; "1"; "2"; "3"; "4"; "5"; "6"; "7"; "8"; "9"]%char.
Proof.
  intros Hn. unfold to_string.
  destruct n as [|p|p]; [| |lia].
  - exists "0"%char, ""%string. split; [done|set_solver].
  - simpl. unfold NilZero.string_of_uint.
    destruct (Pos.to_uint p); simpl; eexists _, _; (split; [reflexivity|set_solver]).
Qed.

(** ** Reading the CIGAR back *)

Lemma parse_digits (d : uint) (rest : string) (toks : list (ascii * Z)) (c : ascii)
    (digits : uint) :
  parse_cigar_loop (NilEmpty.string_of_uint d +:+ rest) toks (Some (c, digits))
  = parse_cigar_loop rest toks (Some (c, revapp d digits)).
Proof.
  revert digits. induction d; intros digits; simpl; try done;
    rewrite string_app_cons; simpl; apply IHd.
Qed.

Lemma to_string_pos (p : positive) :
  to_string (Z.pos p) = NilEmpty.string_of_uint (Pos.to_uint p).
Proof.
  unfold to_string. simpl. unfold NilZero.string_of_uint.
  pose proof (DecimalPos.Unsigned.to_uint_nonnil p) as H.
  by destruct (Pos.to_uint p).
Qed.

Lemma of_uint_to_uint (p : positive) :
  Z.of_uint (Decimal.rev (revapp (Pos.to_uint p) Nil)) = Z.pos p.
Proof.
  change (revapp (Pos.to_uint p) Nil) with (Decimal.rev (Pos.to_uint p)).
  rewrite DecimalFacts.rev_rev. unfold Z.of_uint.
  by rewrite DecimalPos.Unsigned.of_to.
Qed.

Lemma parse_flush_digits (toks : list (ascii * Z)) (c : ascii) (p : positive) :
  parse_flush toks (Some (c, revapp (Pos.to_uint p) Nil)) = Some (toks ++ [(c, Z.pos p)]).
Proof.
  unfold parse_flush. rewrite of_uint_to_uint.
  destruct (revapp (Pos.to_uint p) Nil) eqn:E; try done.
  apply DecimalFacts.revapp_nil_inv in E as [E _].
  by apply DecimalPos.Unsigned.to_uint_nonnil in E.
Qed.

Lemma parse_tokens (toks done : list (ascii * Z)) (c : ascii) (n : Z) :
  1 <= n -> Forall token_ok toks ->
  parse_cigar_loop (to_string n +:+ concat_tokens letter_first toks) done (Some (c, Nil))
  = Some (done ++ (c, n) :: toks).
Proof.
  intros Hn Hok. revert done c n Hn.
  induction Hok as [|[c' n'] toks [Hc' Hn'] _ IH]; intros done c n Hn;
    (destruct n as [|p|p]; [lia| |lia]); rewrite to_string_pos, parse_digits.
  - simpl. apply parse_flush_digits.
  - cbn [concat_tokens foldr]. fold (concat_tokens letter_first toks).
    unfold letter_first at 1. cbn [fst snd]. rewrite string_app_cons.
    cbn [parse_cigar_loop]. simpl in Hc', Hn'.
    assert (Hnd : forall d, uint_of_char c' (Some d) = None).
    { intros d. repeat (apply elem_of_cons in Hc' as [->|Hc']; [done|]).
      by apply elem_of_nil in Hc'. }
    rewrite Hnd, parse_flush_digits, IH by done.
    by rewrite <- app_assoc.
Qed.

Lemma parse_cigar_tokens (toks : list (ascii * Z)) :
  Forall token_ok toks ->
  parse_cigar (concat_tokens letter_first toks) = Some toks.
Proof.
  intros Hok. unfold parse_cigar.
  destruct Hok as [|[c n] toks [Hc Hn] Hok]; [done|].
  cbn [concat_tokens foldr]. fold (concat_tokens letter_first toks).
  unfold letter_first at 1. cbn [fst snd]. rewrite string_app_cons.
  cbn [parse_cigar_loop]. simpl in Hc, Hn.
  assert (Hnd : uint_of_char c (Some Nil) = None).
  { repeat (apply elem_of_cons in Hc as [->|Hc]; [done|]).
    by apply elem_of_nil in Hc. }
  rewrite Hnd. by apply parse_tokens.
Qed.

Lemma token_total_tokens_of (t : CigarType) (c : ascii) (runs : list (CigarType * Z)) :
  op_letter t = Some c ->
  token_total c (tokens_of runs) = run_total t runs.
Proof.
  intros Ht. induction runs as [|[t' n] runs IH]; [done|].
  unfold tokens_of in *. cbn [omap list_omap fst snd run_total foldr].
  fold (run_total t runs). rewrite <- IH.
  destruct t; simpl in Ht; try discriminate; injection Ht as <-;
    destruct t'; simpl; done.
Qed.

(** The CIGAR of an alignment is the letter-first spelling of the tokens of
    its reported runs, and reads back as these tokens. *)
Lemma cigar_string_tokens (cols : list (ascii * ascii)) :
  let toks := tokens_of (reported_runs cols) in
  out_cigarString (cigar_stats_of cols) = concat_tokens letter_first toks
  /\ parse_cigar (out_cigarString (cigar_stats_of cols)) = Some toks
  /\ Forall token_ok toks.
Proof.
  cbv zeta.
  assert (Hok : Forall token_ok (tokens_of (reported_runs cols)))
    by apply tokens_of_ok, reported_runs_positive.
  rewrite cigar_string_reported, render_tokens.
  split; [done|]. split; [by apply parse_cigar_tokens|done].
Qed.

Lemma columns_nonempty (a b : string) :
  Z.max (size a) (size b) <> 0 -> columns a b <> [].
Proof.
  unfold columns, size. intros H.
  destruct (Nat.max (String.length a) (String.length b)) eqn:E; [lia|done].
Qed.

Lemma finalString_first_field (f : double -> string) (r : CigarStats) (ms : Z) :
  no_comma (out_cigarString r) ->
  first_field (finalString f r ms) = out_cigarString r.
Proof. intros H. unfold finalString. by apply first_field_comma. Qed.

Lemma finalString_nonempty (f : double -> string) (r : CigarStats) (ms : Z) :
  finalString f r ms <> ""%string.
Proof.
  unfold finalString. destruct (out_cigarString r); [|by rewrite string_app_cons].
  by rewrite string_app_nil_l.
Qed.

Section Results.
Context {ext : External}.

(** semiGlobalAlign is the k-mer and seeding stage followed by the rest of
    the pipeline; a non-empty result is the record of the statistics of the
    two rows the aligner returned. *)
Lemma semiGlobalAlign_chain (s1 s2 : string) (s1Len s2Len kSize bandSize : Z)
    (ald : double) :
  semiGlobalAlign s1 s2 s1Len s2Len kSize bandSize ald
  = (seedChain ← input_seedChain s1 s2 s1Len s2Len kSize;
     mret (align_chain s1 s2 seedChain bandSize ald)).
Proof.
  unfold semiGlobalAlign, input_seedChain.
  destruct (getSeqKmers s1 s1Len kSize); [|done].
  by destruct (getSeqKmers s2 s2Len kSize).
Qed.

Lemma semiGlobalAlign_rows (s1 s2 : string) (s1Len s2Len kSize bandSize : Z)
    (ald : double) (res : string) :
  semiGlobalAlign s1 s2 s1Len s2Len kSize bandSize ald = Returned res ->
  res <> ""%string ->
  exists a b : string,
    input_rows s1 s2 s1Len s2Len kSize bandSize = Returned (a, b)
    /\ columns a b <> []
    /\ res = finalString to_string_double (cigar_stats a b) (time7 - time1).
Proof.
  rewrite semiGlobalAlign_chain. unfold input_rows. intros Hres Hne.
  destruct (input_seedChain s1 s2 s1Len s2Len kSize) as [chain|e]; [|done].
  simpl in Hres. injection Hres as Hres. unfold align_chain, align_banded in Hres.
  destruct (_ =? 0); [congruence|].
  destruct (_ =? 0); [congruence|].
  destruct (ratio_out_of_tolerance _ _); [congruence|].
  destruct (alignment_rows _ _ _ _) as [a b] eqn:Erows.
  destruct (Z.eqb_spec (Z.max (size a) (size b)) 0) as [|Hmax]; [congruence|].
  exists a, b. simpl. rewrite Erows. repeat split; try done. by apply columns_nonempty.
Qed.

(** C1 (amended).  In every non-empty result of semiGlobalAlign the CIGAR
    field, the text before the first comma, is a concatenation of tokens
    written operation letter first: a letter among M, I, D, S followed by
    the decimal numeral of a run length, which is at least 1.  The tokens
    are those of the reported runs of the alignment, in order, and reading
    the field letter first gives them back. *)
Theorem cigar_letter_first (s1 s2 : string) (s1Len s2Len kSize bandSize : Z)
    (ald : double) (res : string) :
  semiGlobalAlign s1 s2 s1Len s2Len kSize bandSize ald = Returned res ->
  res <> ""%string ->
  exists (a b : string) (toks : list (ascii * Z)),
    input_rows s1 s2 s1Len s2Len kSize bandSize = Returned (a, b)
    /\ res = finalString to_string_double (cigar_stats a b) (time7 - time1)
    /\ first_field res = out_cigarString (cigar_stats a b)
    /\ toks = tokens_of (reported_runs (columns a b))
    /\ first_field res = concat_tokens letter_first toks
    /\ parse_cigar (first_field res) = Some toks
    /\ Forall token_ok toks.
Proof.
  intros Hres Hne.
  destruct (semiGlobalAlign_rows _ _ _ _ _ _ _ _ Hres Hne) as (a & b & Hrows & _ & ->).
  exists a, b, (tokens_of (reported_runs (columns a b))).
  destruct (cigar_string_tokens (columns a b)) as (Hcat & Hparse & Hok).
  assert (Hfield : first_field (finalString to_string_double (cigar_stats a b)
                                  (time7 - time1))
                   = out_cigarString (cigar_stats a b)).
  { apply finalString_first_field. unfold cigar_stats.
    rewrite cigar_string_reported. apply no_comma_render. }
  rewrite Hfield. unfold cigar_stats. rewrite Hparse, <- Hcat.
  repeat split; done.
Qed.

End Results.

Lemma cigar_letter_first_witness :
  exists (a b : string) (toks : list (ascii * Z)),
    @input_rows (scripted [mkSeed 0 0 3 3] ("ACGT-ACGT", "ACGTTACGT")%string)
      "ACGTACGT" "ACGTTACGT" 8 9 3 10
    = Returned (a, b)
    /\ "M4D1M4,0,8,0,9,9,8,0,,0,,1,4,1,88.888889,0"%string
       = finalString printf_f (cigar_stats a b) (0 - 0)
    /\ first_field "M4D1M4,0,8,0,9,9,8,0,,0,,1,4,1,88.888889,0"
       = out_cigarString (cigar_stats a b)
    /\ toks = tokens_of (reported_runs (columns a b))
    /\ first_field "M4D1M4,0,8,0,9,9,8,0,,0,,1,4,1,88.888889,0"
       = concat_tokens letter_first toks
    /\ parse_cigar (first_field "M4D1M4,0,8,0,9,9,8,0,,0,,1,4,1,88.888889,0") = Some toks
    /\ Forall token_ok toks.
Proof.
  apply (@cigar_letter_first (scripted [mkSeed 0 0 3 3] ("ACGT-ACGT", "ACGTTACGT"))%string
           "ACGTACGT" "ACGTTACGT" 8 9 3 10 (S754_zero false)).
  - by vm_compute.
  - done.
Defined.

(** The CIGAR field of a one-column alignment is [M1]; no list of
    well-formed tokens written length first concatenates to it. *)
Lemma cigar_length_first_counterexample :
  @semiGlobalAlign (scripted [mkSeed 0 0 3 3] ("A", "A")%string)
    "ACGT" "ACGT" 4 4 3 10 (S754_zero false)
  = Returned "M1,0,1,0,1,1,1,0,,0,,0,,0,100.000000,0"%string
  /\ first_field "M1,0,1,0,1,1,1,0,,0,,0,,0,100.000000,0" = "M1"%string
  /\ ~ exists toks : list (ascii * Z),
         Forall token_ok toks /\ "M1"%string = concat_tokens length_first toks.
Proof.
  split; [by vm_compute|]. split; [done|].
  intros (toks & Hok & Heq).
  destruct toks as [|[c n] toks]; [done|].
  inversion Hok as [|? ? [_ Hn] _]; subst. simpl in Hn.
  destruct (to_string_head n) as (d & rest & Hd & Hin); [lia|].
  simpl in Heq. unfold length_first in Heq. simpl in Heq.
  rewrite Hd, !string_app_cons in Heq.
  injection Heq as Heq _. subst d.
  repeat (apply elem_of_cons in Hin as [Hin|Hin]; [discriminate|]).
  by apply elem_of_nil in Hin.
Qed.

(** ** The statistics in terms of the runs *)

Lemma run_total_nonneg (t : CigarType) (runs : list (CigarType * Z)) :
  Forall (fun r : CigarType * Z => 1 <= r.2) runs -> 0 <= run_total t runs.
Proof.
  induction 1 as [|r runs Hr _ IH]; simpl; [done|].
  case_bool_decide; lia.
Qed.

Lemma cigar_stats_of_fields (cols : list (ascii * ascii)) (t : CigarType) (n : Z)
    (acc : list (CigarType * Z)) :
  rle_rev (classify false cols) = (t, n) :: acc ->
  let r := cigar_stats_of cols in
  let ts := classify false cols in
  out_cigarString r = render (rev acc) +:+ getCigarPart (reclassify_trailing t) n
  /\ out_insertionCount r = kind_count INSERTION ts - trailing_cut INSERTION t n
  /\ out_deletionCount r = kind_count DELETION ts - trailing_cut DELETION t n
  /\ out_s1End r = row1_bases cols - trailing_cut INSERTION t n
  /\ out_s2End r = row2_bases cols - trailing_cut DELETION t n
  /\ out_matchCount r + out_mismatchCount r = kind_count MATCH ts
  /\ 0 <= out_matchCount r /\ 0 <= out_mismatchCount r
  /\ Z.of_nat (length (out_s2MismatchPositions r)) = out_mismatchCount r
  /\ Z.of_nat (length (out_s2InsertionPositions r)) = kind_count INSERTION ts
  /\ Z.of_nat (length (out_s2DeletionPositions r)) = kind_count DELETION ts.
Proof.
  intros Erle.
  destruct (loop_inv_loop cols) as [_ Hruns Hm Hnn Hi Hd Hmp Hip Hdp Hb1 Hb2 _ _].
  rewrite Erle in Hruns. destruct Hruns as (Ht & Hn & Hs).
  cbv zeta. unfold cigar_stats_of, cigar_finish, trailing_cut. cbn [out_cigarString
    out_insertionCount out_deletionCount out_s1End out_s2End out_matchCount
    out_mismatchCount out_s2MismatchPositions out_s2InsertionPositions
    out_s2DeletionPositions].
  rewrite Ht, Hn, Hs, Hi, Hd, Hb1, Hb2, Hmp, Hip, Hdp, Hi, Hd, Hm.
  destruct Hnn. destruct t; simpl; repeat split; try done; lia.
Qed.

Lemma rle_rev_of_runs (cols : list (ascii * ascii)) (front : list (CigarType * Z))
    (t : CigarType) (n : Z) :
  runs_of cols = front ++ [(t, n)] ->
  rle_rev (classify false cols) = (t, n) :: rev front.
Proof.
  unfold runs_of. intros H.
  rewrite <- (rev_involutive (rle_rev _)), H, rev_app_distr. done.
Qed.

(** C2 (amended).  When the last run of the alignment is an Insertion of
    length [n], the CIGAR ends with the Clip token [S n] after the rendering
    of the runs before it, [n] is subtracted from the insertion count and
    from the end coordinate on seq1, and nothing else changes; when it is a
    Deletion of length [n], the run is reclassified as NOTHING, which adds
    no token at all (no S run) to the CIGAR, and [n] is subtracted from the
    deletion count and from the end coordinate on seq2. *)
Theorem trailing_gap_correction (cols : list (ascii * ascii))
    (front : list (CigarType * Z)) (t : CigarType) (n : Z) :
  runs_of cols = front ++ [(t, n)] ->
  t = INSERTION \/ t = DELETION ->
  let r := cigar_stats_of cols in
  let ts := classify false cols in
  reported_runs cols = front ++ [(reclassify_trailing t, n)]
  /\ out_cigarString r
     = render front +:+ (if bool_decide (t = INSERTION) then "S" +:+ to_string n else "")
  /\ out_insertionCount r
     = kind_count INSERTION ts - (if bool_decide (t = INSERTION) then n else 0)
  /\ out_s1End r = row1_bases cols - (if bool_decide (t = INSERTION) then n else 0)
  /\ out_deletionCount r
     = kind_count DELETION ts - (if bool_decide (t = DELETION) then n else 0)
  /\ out_s2End r = row2_bases cols - (if bool_decide (t = DELETION) then n else 0).
Proof.
  intros Hruns Ht. apply rle_rev_of_runs in Hruns.
  destruct (cigar_stats_of_fields _ _ _ _ Hruns) as (Hc & Hi & Hd & H1 & H2 & _).
  cbv zeta. rewrite Hc, Hi, Hd, H1, H2, rev_involutive.
  unfold reported_runs, trailing_cut. rewrite Hruns, rev_involutive.
  destruct Ht as [-> | ->]; simpl; repeat split; try done.
Qed.

Lemma trailing_gap_correction_witness :
  let cols := columns "AC-" "ACG" in
  let r := cigar_stats_of cols in
  let ts := classify false cols in
  reported_runs cols = [(MATCH, 2)] ++ [(reclassify_trailing DELETION, 1)]
  /\ out_cigarString r
     = render [(MATCH, 2)]
       +:+ (if bool_decide (DELETION = INSERTION) then "S" +:+ to_string 1 else "")
  /\ out_insertionCount r
     = kind_count INSERTION ts - (if bool_decide (DELETION = INSERTION) then 1 else 0)
  /\ out_s1End r = row1_bases cols - (if bool_decide (DELETION = INSERTION) then 1 else 0)
  /\ out_deletionCount r
     = kind_count DELETION ts - (if bool_decide (DELETION = DELETION) then 1 else 0)
  /\ out_s2End r = row2_bases cols - (if bool_decide (DELETION = DELETION) then 1 else 0).
Proof.
  apply (trailing_gap_correction (columns "AC-" "ACG") [(MATCH, 2)] DELETION 1).
  - reflexivity.
  - right. reflexivity.
Defined.

(** The last run of [AC-] over [ACG] is a Deletion of length 1.  The CIGAR
    is [M2]: the run leaves no S token. *)
Lemma trailing_deletion_counterexample :
  runs_of (columns "AC-" "ACG") = [(MATCH, 2); (DELETION, 1)]
  /\ out_cigarString (cigar_stats "AC-" "ACG") = "M2"%string
  /\ out_deletionCount (cigar_stats "AC-" "ACG") = 0
  /\ out_s2End (cigar_stats "AC-" "ACG") = 2
  /\ index 0 "S" (out_cigarString (cigar_stats "AC-" "ACG")) = None.
Proof. by vm_compute. Qed.

(** ** Position lists, spans and percent identity *)

Lemma classify_nonempty (c : ascii * ascii) (cols : list (ascii * ascii)) :
  exists (t : CigarType) (n : Z) (acc : list (CigarType * Z)),
    rle_rev (classify false (c :: cols)) = (t, n) :: acc.
Proof.
  destruct (rle_rev (classify false (c :: cols))) as [|[t n] acc] eqn:E.
  - by apply rle_rev_nil in E.
  - by exists t, n, acc.
Qed.

(** The position lists keep one entry per Insertion (Deletion) column,
    also for the columns of a trailing run that the counts no longer
    include. *)
Lemma position_lists_lengths (cols : list (ascii * ascii)) (t : CigarType) (n : Z)
    (acc : list (CigarType * Z)) :
  rle_rev (classify false cols) = (t, n) :: acc ->
  let r := cigar_stats_of cols in
  Z.of_nat (length (out_s2MismatchPositions r)) = out_mismatchCount r
  /\ Z.of_nat (length (out_s2InsertionPositions r))
     = out_insertionCount r + trailing_cut INSERTION t n
  /\ Z.of_nat (length (out_s2DeletionPositions r))
     = out_deletionCount r + trailing_cut DELETION t n.
Proof.
  intros Erle.
  destruct (cigar_stats_of_fields _ _ _ _ Erle)
    as (_ & Hi & Hd & _ & _ & _ & _ & _ & Hmp & Hip & Hdp).
  cbv zeta. rewrite Hmp, Hip, Hdp, Hi, Hd. repeat split; lia.
Qed.

(** C3, at an alignment that ends in an Insertion run: the insertion count
    is 0 after the trailing-run correction, and the list of insertion
    positions still has its entry. *)
Theorem insertion_positions_after_trailing_run :
  let r := cigar_stats "ACGT" "ACG-" in
  out_cigarString r = "M3S1"%string
  /\ out_insertionCount r = 0
  /\ out_s2InsertionPositions r = [3]
  /\ Z.of_nat (length (out_s2InsertionPositions r)) <> out_insertionCount r
  /\ @semiGlobalAlign (scripted [mkSeed 0 0 2 2] ("ACGT", "ACG-")%string)
       "ACGT" "ACG" 4 3 2 10 (S754_zero false)
     = Returned "M3S1,0,3,0,3,3,3,0,,0,3,0,,0,100.000000,0"%string.
Proof. by vm_compute. Qed.

Lemma reported_totals (cols : list (ascii * ascii)) (t : CigarType) (n : Z)
    (acc : list (CigarType * Z)) (k : CigarType) :
  rle_rev (classify false cols) = (t, n) :: acc ->
  k = MATCH \/ k = INSERTION \/ k = DELETION ->
  run_total k (reported_runs cols)
  = kind_count k (classify false cols)
    - (if bool_decide (k = MATCH) then 0 else trailing_cut k t n).
Proof.
  intros Erle Hk. unfold reported_runs. rewrite Erle.
  rewrite <- (run_total_rle_rev k), Erle, run_total_app, run_total_rev.
  unfold trailing_cut. simpl.
  destruct Hk as [-> | [-> | ->]]; destruct t; simpl; lia.
Qed.

Lemma double_gaps_snoc (b : bool) (p : list (ascii * ascii)) (c : ascii * ascii) :
  double_gaps_after_start b (p ++ [c])
  = double_gaps_after_start b p
    + (if (b || existsb both_bases p || both_bases c)
          && Ascii.eqb c.1 gap && Ascii.eqb c.2 gap
       then 1 else 0).
Proof.
  revert b. induction p as [|c0 p IH]; intros b; simpl.
  - rewrite orb_false_r. lia.
  - rewrite IH, !orb_assoc. lia.
Qed.

Lemma double_gaps_unstarted (p : list (ascii * ascii)) :
  existsb both_bases p = false -> double_gaps_after_start false p = 0.
Proof.
  induction p as [|c p IH]; intros Hex; [done|].
  simpl in Hex. apply orb_false_iff in Hex as [Hc Hp].
  simpl. rewrite Hc. simpl. by rewrite IH.
Qed.

Lemma double_gaps_none (b : bool) (cols : list (ascii * ascii)) :
  Forall no_double_gap cols -> double_gaps_after_start b cols = 0.
Proof.
  intros Hdg. revert b. induction Hdg as [|c cols Hc _ IH]; intros b; [done|].
  simpl. rewrite IH.
  destruct Hc as [-> | ->]; by rewrite ?andb_false_r.
Qed.

(** Once the alignment has started, the bases consumed since the start are
    the Match and Insertion columns on seq1, and the Match and Deletion
    columns on seq2 except those that hold a gap in both rows. *)
Lemma coords_exact (p : list (ascii * ascii)) :
  let st := cigar_loop 0 p cigar_init in
  let ts := classify false p in
  alignmentStarted st = true ->
  s1Bases st - s1Start st = kind_count MATCH ts + kind_count INSERTION ts
  /\ s2Bases st - s2Start st
     = kind_count MATCH ts + kind_count DELETION ts - double_gaps_after_start false p.
Proof.
  induction p as [|c p IH] using rev_ind; [done|].
  cbv zeta in *.
  rewrite cigar_loop_snoc, Z.add_0_l, classify_snoc, !kind_count_snoc, double_gaps_snoc.
  destruct (loop_inv_loop p) as [Hst _ _ _ _ _ _ _ _ _ _ Hns _].
  pose proof (double_gaps_unstarted p) as Hdg0.
  simpl orb. rewrite <- Hst in *.
  set (st := cigar_loop 0 p cigar_init) in *.
  step_cases c st; intros Hnew; try discriminate Hnew;
    try (destruct (IH eq_refl) as [IH1 IH2]);
    try (destruct (Hns eq_refl) as (Hs1 & Hs2 & Hm & Hi & Hd); specialize (Hdg0 eq_refl));
    split; lia.
Qed.

Lemma spans_of_started (cols : list (ascii * ascii)) :
  existsb both_bases cols = true ->
  let r := cigar_stats_of cols in
  let runs := reported_runs cols in
  run_total MATCH runs + run_total INSERTION runs = out_s1End r - out_s1Start r
  /\ run_total MATCH runs + run_total DELETION runs
     = out_s2End r - out_s2Start r + double_gaps_after_start false cols.
Proof.
  intros Hex. destruct cols as [|c cols]; [done|].
  destruct (classify_nonempty c cols) as (t & n & acc & Erle).
  destruct (cigar_stats_of_fields _ _ _ _ Erle) as (_ & _ & _ & H1 & H2 & _).
  destruct (loop_inv_loop (c :: cols)) as [Hst _ _ _ _ _ _ _ _ Hb1 Hb2 _ _].
  rewrite Hex in Hst. destruct (coords_exact (c :: cols) Hst) as [Hc1 Hc2].
  cbv zeta. rewrite H1, H2.
  rewrite !(reported_totals _ _ _ _ _ Erle) by auto.
  change (out_s1Start (cigar_stats_of (c :: cols)))
    with (s1Start (cigar_loop 0 (c :: cols) cigar_init)).
  change (out_s2Start (cigar_stats_of (c :: cols)))
    with (s2Start (cigar_loop 0 (c :: cols) cigar_init)).
  simpl bool_decide. cbv iota. lia.
Qed.

Lemma percentIdentity_unfold (cols : list (ascii * ascii)) :
  out_percentIdentity (cigar_stats_of cols)
  = ddiv (dmul (double_of_int 100) (double_of_int (out_matchCount (cigar_stats_of cols))))
         (double_of_int (out_alignedLength (cigar_stats_of cols))).
Proof. reflexivity. Qed.

Lemma alignedLength_unfold (cols : list (ascii * ascii)) :
  out_alignedLength (cigar_stats_of cols)
  = out_matchCount (cigar_stats_of cols) + out_mismatchCount (cigar_stats_of cols)
    + out_insertionCount (cigar_stats_of cols) + out_deletionCount (cigar_stats_of cols).
Proof. reflexivity. Qed.

Lemma counts_nonneg (cols : list (ascii * ascii)) :
  let r := cigar_stats_of cols in
  0 <= out_matchCount r /\ 0 <= out_mismatchCount r
  /\ 0 <= out_insertionCount r /\ 0 <= out_deletionCount r.
Proof.
  destruct cols as [|c cols]; [by vm_compute|].
  destruct (classify_nonempty c cols) as (t & n & acc & Erle).
  destruct (cigar_stats_of_fields _ _ _ _ Erle)
    as (_ & Hi & Hd & _ & _ & _ & Hm & Hmm & _).
  cbv zeta. rewrite Hi, Hd.
  rewrite <- !run_total_rle_rev, Erle.
  pose proof (rle_rev_positive (classify false (c :: cols))) as Hpos.
  rewrite Erle in Hpos. inversion Hpos as [|? ? Hn Hacc]; subst.
  pose proof (run_total_nonneg INSERTION _ Hacc).
  pose proof (run_total_nonneg DELETION _ Hacc).
  unfold trailing_cut. simpl in *.
  repeat split; try done; repeat case_bool_decide; lia.
Qed.

(** C8.  Whenever the aligned length is 0 the percent identity is the NaN
    that the division 0.0 / 0.0 produces: line 206 divides without a
    guard. *)
Theorem percentIdentity_nan_at_zero_length (cols : list (ascii * ascii)) :
  out_alignedLength (cigar_stats_of cols) = 0 ->
  out_percentIdentity (cigar_stats_of cols) = S754_nan.
Proof.
  intros Hlen. rewrite percentIdentity_unfold, Hlen.
  rewrite alignedLength_unfold in Hlen.
  destruct (counts_nonneg cols) as (? & ? & ? & ?).
  replace (out_matchCount (cigar_stats_of cols)) with 0 by lia.
  reflexivity.
Qed.

Lemma percentIdentity_nan_at_zero_length_witness :
  out_percentIdentity (cigar_stats_of (columns "AC" "--")) = S754_nan.
Proof.
  apply (percentIdentity_nan_at_zero_length (columns "AC" "--")).
  reflexivity.
Defined.

(** The record semiGlobalAlign returns for such an alignment. *)
Example percentIdentity_nan_record :
  @semiGlobalAlign (scripted [mkSeed 0 0 2 2] ("AC", "--")%string)
    "ACGT" "TTAC" 4 4 2 10 (S754_zero false)
  = Returned "S2,-1,2,-1,0,0,0,0,,0,,0,,0,-nan,0"%string.
Proof. by vm_compute. Qed.

(** ** Results of semiGlobalAlign *)

Section Pipeline.
Context {ext : External}.

(** C4 (amended).  For every non-empty result whose alignment has a column
    with a base in both rows, the CIGAR field reads as the tokens of the
    reported runs, the lengths of the M tokens plus those of the I tokens
    add up to [s1End - s1Start], and the lengths of the M tokens plus those
    of the D tokens add up to [s2End - s2Start] plus the number of columns
    that hold a gap in both rows after the alignment has started; for the
    rows of a pairwise alignment, which has no such column, they add up to
    [s2End - s2Start]. *)
Theorem cigar_reconstructs_spans (s1 s2 : string) (s1Len s2Len kSize bandSize : Z)
    (ald : double) (res a b : string) :
  semiGlobalAlign s1 s2 s1Len s2Len kSize bandSize ald = Returned res ->
  res <> ""%string ->
  input_rows s1 s2 s1Len s2Len kSize bandSize = Returned (a, b) ->
  existsb both_bases (columns a b) = true ->
  let r := cigar_stats a b in
  let toks := tokens_of (reported_runs (columns a b)) in
  res = finalString to_string_double r (time7 - time1)
  /\ first_field res = out_cigarString r
  /\ parse_cigar (out_cigarString r) = Some toks
  /\ token_total "M" toks + token_total "I" toks = out_s1End r - out_s1Start r
  /\ token_total "M" toks + token_total "D" toks
     = out_s2End r - out_s2Start r + double_gaps_after_start false (columns a b)
  /\ (Forall no_double_gap (columns a b) ->
      token_total "M" toks + token_total "D" toks = out_s2End r - out_s2Start r).
Proof.
  intros Hres Hne Hrows Hex.
  destruct (semiGlobalAlign_rows _ _ _ _ _ _ _ _ Hres Hne) as (a' & b' & Hrows' & _ & ->).
  rewrite Hrows in Hrows'. injection Hrows' as <- <-.
  destruct (cigar_string_tokens (columns a b)) as (_ & Hparse & _).
  destruct (spans_of_started _ Hex) as [H1 H2].
  cbv zeta. split; [done|]. split; [|split; [done|]].
  - apply finalString_first_field. unfold cigar_stats.
    rewrite cigar_string_reported. apply no_comma_render.
  - rewrite (token_total_tokens_of MATCH), (token_total_tokens_of INSERTION),
      (token_total_tokens_of DELETION) by done.
    split; [done|]. split; [done|].
    intros Hdg. rewrite H2, (double_gaps_none false _ Hdg). unfold cigar_stats. lia.
Qed.

(** C10.  When the pipeline reaches the aligner and the rows it returns are
    not both empty but no column has a base in both rows, semiGlobalAlign
    returns a full record, not the empty string, and the s1Start and s2Start
    fields of the record are -1. *)
Theorem unstarted_alignment_record (s1 s2 : string) (s1Len s2Len kSize bandSize : Z)
    (ald : double) (seedChain : list TSeed) (a b : string) :
  input_seedChain s1 s2 s1Len s2Len kSize = Returned seedChain ->
  seedChain <> [] ->
  seq2Span seedChain <> 0 ->
  ratio_out_of_tolerance seedChain ald = false ->
  alignment_rows s1 s2 seedChain bandSize = (a, b) ->
  a <> ""%string \/ b <> ""%string ->
  existsb both_bases (columns a b) = false ->
  let r := cigar_stats a b in
  exists rest : string,
    semiGlobalAlign s1 s2 s1Len s2Len kSize bandSize ald
    = Returned (finalString to_string_double r (time7 - time1))
    /\ finalString to_string_double r (time7 - time1) <> ""%string
    /\ out_s1Start r = -1 /\ out_s2Start r = -1
    /\ finalString to_string_double r (time7 - time1)
       = out_cigarString r +:+ ",-1," +:+ to_string (out_s1End r) +:+ ",-1," +:+ rest.
Proof.
  intros Hchain Hne Hspan Hratio Hrows Hab Hex. cbv zeta.
  assert (Hstart : out_s1Start (cigar_stats a b) = -1 /\ out_s2Start (cigar_stats a b) = -1).
  { destruct (loop_inv_loop (columns a b)) as [Hst _ _ _ _ _ _ _ _ _ _ Hns _].
    rewrite Hex in Hst. destruct (Hns Hst) as (? & ? & _). done. }
  destruct Hstart as [Hs1 Hs2].
  eexists. split; [|split; [apply finalString_nonempty|]].
  - rewrite semiGlobalAlign_chain, Hchain. simpl. unfold align_chain, align_banded.
    destruct (Z.eqb_spec (Z.of_nat (length seedChain)) 0) as [H0|_].
    { destruct seedChain; [done|simpl in H0; lia]. }
    destruct (Z.eqb_spec (seq2Span seedChain) 0) as [|_]; [done|].
    rewrite Hratio, Hrows.
    destruct (Z.eqb_spec (Z.max (size a) (size b)) 0) as [Hmax|_]; [|done].
    unfold size in Hmax. destruct a, b; simpl in Hmax; try lia. by destruct Hab.
  - split; [done|]. split; [done|].
    unfold finalString. rewrite Hs1, Hs2. reflexivity.
Qed.

End Pipeline.

Lemma cigar_reconstructs_spans_witness :
  let world :=
    scripted [mkSeed 1 1 4 4; mkSeed 4 5 7 8] ("ACGT-ACGT", "ACGTTACGT")%string in
  let a := "ACGT-ACGT"%string in
  let b := "ACGTTACGT"%string in
  let r := cigar_stats a b in
  let toks := tokens_of (reported_runs (columns a b)) in
  "M4D1M4,0,8,0,9,9,8,0,,0,,1,4,1,88.888889,0"%string
  = finalString (@to_string_double world) r (@time7 world - @time1 world)
  /\ first_field "M4D1M4,0,8,0,9,9,8,0,,0,,1,4,1,88.888889,0" = out_cigarString r
  /\ parse_cigar (out_cigarString r) = Some toks
  /\ token_total "M" toks + token_total "I" toks = out_s1End r - out_s1Start r
  /\ token_total "M" toks + token_total "D" toks
     = out_s2End r - out_s2Start r + double_gaps_after_start false (columns a b)
  /\ (Forall no_double_gap (columns a b) ->
      token_total "M" toks + token_total "D" toks = out_s2End r - out_s2Start r).
Proof.
  intros world.
  apply (@cigar_reconstructs_spans world "ACGTACGT" "ACGTTACGT" 8 9 3 10
           (ddiv (double_of_int 1) (double_of_int 4))).
  - by vm_compute.
  - done.
  - by vm_compute.
  - by vm_compute.
Defined.

(** The sequences [GGACGG] and [TTACTT] share the 2-mer [AC] and nothing
    else: the code adds the one seed (2, 2, 4, 4), whose two spans are
    equal.  The rows [GGACGG------] over [------TTACTT] are a pairwise
    alignment of the two sequences (they spell them, and no column holds
    two gaps) in which no two bases are paired.  For these rows the result
    is a full record with CIGAR [S6], both starts -1 and both ends 6: the M
    and I tokens add up to 0 and [s1End - s1Start] is 7, the M and D tokens
    add up to 0 and [s2End - s2Start] is 7. *)
Lemma cigar_spans_counterexample :
  let a := "GGACGG------"%string in
  let b := "------TTACTT"%string in
  let world := scripted [mkSeed 2 2 4 4] (a, b) in
  let r := cigar_stats a b in
  (s1Kmers ← getSeqKmers "GGACGG" 6 2;
   s2Kmers ← getSeqKmers "TTACTT" 6 2;
   mret (getCommonLocations s1Kmers s2Kmers, @addSeeds world (getCommonLocations s1Kmers s2Kmers)))
  = Returned ([(2, 4, 2, 4)], [mkSeed 2 2 4 4])
  /\ seq1Span [mkSeed 2 2 4 4] = 2 /\ seq2Span [mkSeed 2 2 4 4] = 2
  /\ without_gaps a = "GGACGG"%string /\ without_gaps b = "TTACTT"%string
  /\ String.length a = String.length b
  /\ Forall no_double_gap (columns a b)
  /\ @semiGlobalAlign world "GGACGG" "TTACTT" 6 6 2 10 (S754_zero false)
     = Returned "S6,-1,6,-1,6,0,0,0,,0,,0,,0,-nan,0"%string
  /\ first_field "S6,-1,6,-1,6,0,0,0,,0,,0,,0,-nan,0" = out_cigarString r
  /\ parse_cigar (out_cigarString r) = Some [("S"%char, 6)]
  /\ token_total "M" [("S"%char, 6)] + token_total "I" [("S"%char, 6)] = 0
  /\ out_s1End r - out_s1Start r = 7
  /\ token_total "M" [("S"%char, 6)] + token_total "D" [("S"%char, 6)] = 0
  /\ out_s2End r - out_s2Start r = 7.
Proof.
  cbv zeta. repeat split; try (by vm_compute).
  vm_compute.
  repeat (constructor; [(left; reflexivity) || (right; reflexivity)|]).
  constructor.
Qed.

Lemma unstarted_alignment_record_witness :
  let r := cigar_stats "AC" "--" in
  exists rest : string,
    @semiGlobalAlign (scripted [mkSeed 0 0 2 2] ("AC", "--")%string)
      "ACGT" "TTAC" 4 4 2 10 (S754_zero false)
    = Returned (finalString printf_f r (0 - 0))
    /\ finalString printf_f r (0 - 0) <> ""%string
    /\ out_s1Start r = -1 /\ out_s2Start r = -1
    /\ finalString printf_f r (0 - 0)
       = out_cigarString r +:+ ",-1," +:+ to_string (out_s1End r) +:+ ",-1," +:+ rest.
Proof.
  apply (@unstarted_alignment_record (scripted [mkSeed 0 0 2 2] ("AC", "--"))%string
           "ACGT" "TTAC" 4 4 2 10 (S754_zero false) [mkSeed 0 0 2 2]).
  - by vm_compute.
  - done.
  - by vm_compute.
  - by vm_compute.
  - reflexivity.
  - by left.
  - reflexivity.
Defined.

(** ** Comparison of doubles *)

Lemma SFcompare_finite_eq (s1 s2 : bool) (m1 m2 : positive) (e1 e2 : Z) :
  SFcompare (S754_finite s1 m1 e1) (S754_finite s2 m2 e2) = Some Eq ->
  s1 = s2 /\ m1 = m2 /\ e1 = e2.
Proof.
  simpl. intros H.
  destruct s1, s2; try done; destruct (Z.compare_spec e1 e2) as [->|?|?]; try done;
    injection H as H.
  - apply (f_equal CompOpp) in H. rewrite CompOpp_involutive in H. simpl in H.
    by apply Pos.compare_eq in H as ->.
  - by apply Pos.compare_eq in H as ->.
Qed.

Lemma SFcompare_eq_l (x y z : double) :
  SFcompare x y = Some Eq -> SFcompare x z = SFcompare y z.
Proof.
  intros H.
  destruct x as [sx|sx| |sx mx ex], y as [sy|sy| |sy my ey];
    try (apply SFcompare_finite_eq in H as (-> & -> & ->); done);
    simpl in H; try done;
    repeat match goal with s : bool |- _ => destruct s end; try done.
Qed.

Lemma SFcompare_antisym (x y : double) (c : comparison) :
  SFcompare x y = Some c -> SFcompare y x = Some (CompOpp c).
Proof.
  destruct x as [sx|sx| |sx mx ex], y as [sy|sy| |sy my ey]; simpl;
    intros H; try done; injection H as <-;
    repeat match goal with s : bool |- _ => destruct s end; try done.
  - rewrite (Z.compare_antisym ey ex).
    destruct (ey ?= ex); simpl; try done.
    f_equal. change (PosDef.Pos.compare_cont Eq) with Pos.compare.
    by rewrite (Pos.compare_antisym mx my), CompOpp_involutive.
  - rewrite (Z.compare_antisym ey ex).
    destruct (ey ?= ex); simpl; try done.
    f_equal. change (PosDef.Pos.compare_cont Eq) with Pos.compare.
    by rewrite (Pos.compare_antisym mx my).
Qed.

Lemma deq_not_dlt (x y : double) : deq x y = true -> dlt x y = false.
Proof. unfold deq, dlt. by destruct (SFcompare x y) as [[]|]. Qed.

Lemma deq_not_dgt (x y : double) : deq x y = true -> dgt x y = false.
Proof. unfold deq, dgt. by destruct (SFcompare x y) as [[]|]. Qed.

Lemma deq_dle_not_dgt (x y z : double) :
  deq x y = true -> dle y z = true -> dgt x z = false.
Proof.
  unfold deq, dle, dgt. intros Hxy Hyz.
  destruct (SFcompare x y) as [[]|] eqn:E; try done.
  rewrite (SFcompare_eq_l _ _ _ E). by destruct (SFcompare y z) as [[]|].
Qed.

Lemma deq_dle_not_dlt (x y z : double) :
  deq x z = true -> dle y z = true -> dlt x y = false.
Proof.
  unfold deq, dle, dlt. intros Hxz Hyz.
  destruct (SFcompare x z) as [[]|] eqn:E; try done.
  rewrite (SFcompare_eq_l _ _ _ E).
  destruct (SFcompare y z) as [c|] eqn:E'; [|done].
  rewrite (SFcompare_antisym _ _ _ E'). by destruct c.
Qed.

(** ** Rounding to binary64

    What the rounding of the Standard Library's binary64 specification
    returns: the mantissa after the shifts is the quotient of the exact
    mantissa, so the result sits at the canonical exponent of the exact
    value, or one above it when the rounding carries. *)

Lemma shr_1_m (mrs : shr_record) :
  0 <= shr_m mrs -> shr_m (shr_1 mrs) = shr_m mrs / 2.
Proof.
  destruct mrs as [m r s]. cbn [shr_m]. intros Hm.
  destruct m as [|[p|p|]|p]; cbn [shr_1 shr_m]; try lia; try reflexivity.
  - apply Z.div_unique with (r := 1); lia.
  - apply Z.div_unique with (r := 0); lia.
Qed.

Lemma pow2_xI (n : positive) : 2 ^ Z.pos n~1 = 2 * (2 ^ Z.pos n * 2 ^ Z.pos n).
Proof.
  replace (Z.pos n~1) with (Z.pos n + Z.pos n + 1) by lia.
  rewrite !Z.pow_add_r by lia. change (2 ^ 1) with 2. lia.
Qed.

Lemma pow2_xO (n : positive) : 2 ^ Z.pos n~0 = 2 ^ Z.pos n * 2 ^ Z.pos n.
Proof.
  replace (Z.pos n~0) with (Z.pos n + Z.pos n) by lia.
  rewrite !Z.pow_add_r by lia. lia.
Qed.

Lemma iter_shr_1_m (n : positive) (mrs : shr_record) :
  0 <= shr_m mrs ->
  shr_m (SpecFloat.iter_pos shr_1 n mrs) = shr_m mrs / 2 ^ Z.pos n.
Proof.
  revert mrs. induction n as [n IH|n IH|]; intros mrs Hm; cbn [SpecFloat.iter_pos].
  - assert (Hp : 0 < 2 ^ Z.pos n) by (apply Z.pow_pos_nonneg; lia).
    assert (H1 : 0 <= shr_m (shr_1 mrs)) by (rewrite shr_1_m by assumption; apply Z.div_pos; lia).
    assert (H2 : 0 <= shr_m (SpecFloat.iter_pos shr_1 n (shr_1 mrs)))
      by (rewrite IH by assumption; apply Z.div_pos; lia).
    rewrite IH, IH, shr_1_m by assumption.
    rewrite !Z.div_div by lia. f_equal. rewrite pow2_xI. lia.
  - assert (Hp : 0 < 2 ^ Z.pos n) by (apply Z.pow_pos_nonneg; lia).
    assert (H2 : 0 <= shr_m (SpecFloat.iter_pos shr_1 n mrs))
      by (rewrite IH by assumption; apply Z.div_pos; lia).
    rewrite IH, IH by assumption.
    rewrite !Z.div_div by lia. f_equal. rewrite pow2_xO. lia.
  - rewrite shr_1_m by assumption. reflexivity.
Qed.

Lemma digits_bounds (p : positive) :
  2 ^ (Z.pos (digits2_pos p) - 1) <= Z.pos p < 2 ^ Z.pos (digits2_pos p).
Proof.
  induction p as [p IH|p IH|]; simpl digits2_pos.
  - rewrite Pos2Z.inj_succ. replace (Z.pos p~1) with (2 * Z.pos p + 1) by lia.
    replace (Z.succ (Z.pos (digits2_pos p)) - 1) with (Z.succ (Z.pos (digits2_pos p) - 1)) by lia.
    rewrite !Z.pow_succ_r by lia. lia.
  - rewrite Pos2Z.inj_succ. replace (Z.pos p~0) with (2 * Z.pos p) by lia.
    replace (Z.succ (Z.pos (digits2_pos p)) - 1) with (Z.succ (Z.pos (digits2_pos p) - 1)) by lia.
    rewrite !Z.pow_succ_r by lia. lia.
  - simpl. lia.
Qed.

Lemma digits_unique (p : positive) (k : Z) :
  2 ^ (k - 1) <= Z.pos p < 2 ^ k -> Z.pos (digits2_pos p) = k.
Proof.
  intros [Hlo Hhi]. pose proof (digits_bounds p) as [Dlo Dhi].
  assert (0 < k).
  { destruct k as [|k|k]; [simpl in Hhi; lia|lia|].
    rewrite Z.pow_neg_r in Hhi by lia. lia. }
  destruct (Z.lt_trichotomy (Z.pos (digits2_pos p)) k) as [Hlt|[Heq|Hgt]]; [|assumption|].
  - assert (2 ^ Z.pos (digits2_pos p) <= 2 ^ (k - 1)) by (apply Z.pow_le_mono_r; lia). lia.
  - assert (2 ^ k <= 2 ^ (Z.pos (digits2_pos p) - 1)) by (apply Z.pow_le_mono_r; lia). lia.
Qed.

Lemma fexp_eq (e : Z) : fexp 53 1024 e = Z.max (e - 53) (-1074).
Proof. reflexivity. Qed.

Lemma iter_xO (d p : positive) :
  Z.pos (Pos.iter xO p d) = Z.pos p * 2 ^ Z.pos d.
Proof.
  induction d as [|d IH] using Pos.peano_ind.
  - simpl. lia.
  - rewrite Pos.iter_succ, Pos2Z.inj_succ, Z.pow_succ_r by lia.
    replace (Z.pos (Pos.iter xO p d)~0) with (2 * Z.pos (Pos.iter xO p d)) by lia.
    rewrite IH. lia.
Qed.

Lemma digits_shift (p : positive) (k : Z) (q : positive) :
  0 <= k -> Z.pos q = Z.pos p * 2 ^ k ->
  Z.pos (digits2_pos q) = Z.pos (digits2_pos p) + k.
Proof.
  intros Hk Hq. apply digits_unique. rewrite Hq.
  pose proof (digits_bounds p) as [Dlo Dhi].
  replace (Z.pos (digits2_pos p) + k - 1) with (Z.pos (digits2_pos p) - 1 + k) by lia.
  rewrite !Z.pow_add_r by lia.
  assert (0 < 2 ^ k) by (apply Z.pow_pos_nonneg; lia).
  split; nia.
Qed.

Lemma shl_align_spec (p : positive) (e c : Z) :
  exists mz : positive,
    shl_align p e c = (mz, Z.min e c)
    /\ Z.pos mz = Z.pos p * 2 ^ (e - Z.min e c)
    /\ Z.pos (digits2_pos mz) + Z.min e c = Z.pos (digits2_pos p) + e.
Proof.
  unfold shl_align. destruct (c - e) as [|d|d] eqn:E.
  - exists p. rewrite Z.min_l by lia. rewrite Z.sub_diag. simpl. repeat split; lia.
  - exists p. rewrite Z.min_l by lia. rewrite Z.sub_diag. simpl. repeat split; lia.
  - exists (Pos.iter xO p d). rewrite Z.min_r by lia.
    assert (Hd : e - c = Z.pos d) by lia.
    rewrite Hd. split; [reflexivity|]. split; [apply iter_xO|].
    rewrite (digits_shift p (Z.pos d) _ ltac:(lia) (iter_xO d p)). lia.
Qed.

Lemma round_nearest_even_bounds (m : Z) (l : location) :
  m <= round_nearest_even m l <= m + 1.
Proof.
  destruct l as [|[]]; simpl; try lia. destruct (Z.even m); lia.
Qed.

Lemma shr_fexp_first (mz : positive) (ez c : Z) :
  c = fexp 53 1024 (Z.pos (digits2_pos mz) + ez) -> ez <= c ->
  exists mrs : shr_record,
    shr_fexp 53 1024 (Z.pos mz) ez loc_Exact = (mrs, c)
    /\ shr_m mrs = Z.pos mz / 2 ^ (c - ez).
Proof.
  intros Hc Hle. unfold shr_fexp, shr. cbn [Zdigits2]. rewrite <- Hc.
  destruct (c - ez) as [|n|n] eqn:E; [| |lia].
  - exists (shr_record_of_loc (Z.pos mz) loc_Exact). split.
    + f_equal. lia.
    + simpl. rewrite Z.div_1_r. reflexivity.
  - eexists. split.
    + f_equal. lia.
    + rewrite iter_shr_1_m by (simpl; lia). reflexivity.
Qed.

Lemma shr_fexp_second (m : Z) (c : Z) :
  -1074 <= c -> 0 <= m <= 2 ^ 53 ->
  (m < 2 ^ 53 /\ shr_fexp 53 1024 m c loc_Exact = (shr_record_of_loc m loc_Exact, c))
  \/ (m = 2 ^ 53
      /\ exists mrs, shr_fexp 53 1024 m c loc_Exact = (mrs, c + 1)
                     /\ shr_m mrs = 2 ^ 52).
Proof.
  intros Hc [Hlo Hhi]. unfold shr_fexp, shr.
  destruct (Z.eq_dec m (2 ^ 53)) as [->|Hne].
  - right. split; [reflexivity|].
    replace (fexp 53 1024 (Zdigits2 (2 ^ 53) + c) - c) with 1.
    + eexists. split; [reflexivity|]. reflexivity.
    + change (Zdigits2 (2 ^ 53)) with 54. rewrite fexp_eq. lia.
  - left. split; [lia|].
    assert (Hn : fexp 53 1024 (Zdigits2 m + c) - c <= 0).
    { rewrite fexp_eq. destruct m as [|q|q]; [simpl; lia| |lia].
      cbn [Zdigits2].
      assert (Z.pos (digits2_pos q) <= 53).
      { pose proof (digits_bounds q) as [Dlo Dhi].
        destruct (Z.leb_spec (Z.pos (digits2_pos q)) 53); [assumption|].
        assert (2 ^ 53 <= 2 ^ (Z.pos (digits2_pos q) - 1)) by (apply Z.pow_le_mono_r; lia).
        lia. }
      lia. }
    destruct (fexp 53 1024 (Zdigits2 m + c) - c); [reflexivity|lia|reflexivity].
Qed.

Lemma binary_round_shape (s : bool) (p : positive) (e : Z) :
  let d := Z.pos (digits2_pos p) in
  round_shape s (fexp 53 1024 (d + e)) (-1074 <= d + e - 53)
    (binary_round 53 1024 s p e).
Proof.
  cbv zeta. set (d := Z.pos (digits2_pos p)). set (c := fexp 53 1024 (d + e)).
  assert (Hc : c = Z.max (d + e - 53) (-1074)) by apply fexp_eq.
  unfold binary_round. fold d. fold c.
  destruct (shl_align_spec p e c) as (mz & -> & Hmz & Hdz).
  set (ez := Z.min e c) in *.
  assert (Hez : ez <= c) by (unfold ez; lia).
  destruct (shr_fexp_first mz ez c) as (mrs' & Hfirst & Hm'); [|assumption|].
  { rewrite Hdz. reflexivity. }
  unfold binary_round_aux. rewrite Hfirst.
  pose proof (digits_bounds mz) as [Dlo Dhi].
  set (dz := Z.pos (digits2_pos mz)) in *.
  assert (Hpow : 0 < 2 ^ (c - ez)) by (apply Z.pow_pos_nonneg; lia).
  assert (Hup : shr_m mrs' < 2 ^ 53).
  { rewrite Hm'. apply Z.div_lt_upper_bound; [assumption|].
    rewrite <- Z.pow_add_r by lia.
    assert (2 ^ dz <= 2 ^ (c - ez + 53)) by (apply Z.pow_le_mono_r; lia). lia. }
  assert (Hnonneg : 0 <= shr_m mrs').
  { rewrite Hm'. apply Z.div_pos; lia. }
  assert (Hlow : -1074 <= d + e - 53 -> 2 ^ 52 <= shr_m mrs').
  { intros Hn. rewrite Hm'. apply Z.div_le_lower_bound; [assumption|].
    rewrite <- Z.pow_add_r by lia.
    replace (c - ez + 52) with (dz - 1) by lia. assumption. }
  pose proof (round_nearest_even_bounds (shr_m mrs') (loc_of_shr_record mrs')) as Hrne.
  set (m'' := round_nearest_even (shr_m mrs') (loc_of_shr_record mrs')) in *.
  destruct (shr_fexp_second m'' c) as [[Hlt Hsecond]|[Heq (mrs'' & Hsecond & Hm'')]];
    [lia|lia| |]; rewrite Hsecond.
  - cbn [shr_record_of_loc shr_m].
    destruct m'' as [|q|q] eqn:Eq; [|  |lia].
    + apply shape_zero. intros Hn. specialize (Hlow Hn). lia.
    + destruct (Z.leb_spec c (1024 - 53)) as [Hle|Hgt].
      * apply shape_same; [assumption|lia|]. intros Hn. specialize (Hlow Hn). lia.
      * apply shape_overflow. lia.
  - destruct (shr_m mrs'') as [|q|q] eqn:Eq; [lia| |lia].
    destruct (Z.leb_spec (c + 1) (1024 - 53)) as [Hle|Hgt].
    + apply shape_carry; [assumption|lia].
    + apply shape_overflow. lia.
Qed.

Lemma digits_lower (p : positive) (k : Z) :
  2 ^ k <= Z.pos p -> k + 1 <= Z.pos (digits2_pos p).
Proof.
  intros H. pose proof (digits_bounds p) as [_ Dhi].
  destruct (Z.leb_spec (k + 1) (Z.pos (digits2_pos p))); [assumption|].
  assert (2 ^ Z.pos (digits2_pos p) <= 2 ^ k) by (apply Z.pow_le_mono_r; lia). lia.
Qed.

Lemma digits_upper (p : positive) (k : Z) :
  0 <= k -> Z.pos p < 2 ^ k -> Z.pos (digits2_pos p) <= k.
Proof.
  intros Hk H. pose proof (digits_bounds p) as [Dlo _].
  destruct (Z.leb_spec (Z.pos (digits2_pos p)) k); [assumption|].
  assert (2 ^ k <= 2 ^ (Z.pos (digits2_pos p) - 1)) by (apply Z.pow_le_mono_r; lia). lia.
Qed.

(** A result rounded from a value of at least 1 is not below a result
    rounded from a positive value below 1, nor below zero or a negative
    result. *)
Lemma dle_shapes (smin : bool) (cmin cmax : Z) (Nmin : Prop) (rmin rmax : spec_float) :
  round_shape smin cmin Nmin rmin ->
  round_shape false cmax True rmax ->
  smin = true \/ cmin <= -53 ->
  -52 <= cmax ->
  dle rmin rmax = true.
Proof.
  intros Hmin Hmax Hs Hc.
  destruct Hmax as [m2 Hm2 Hc2 Hn2|m2 Hm2 Hc2|Hz|Ho]; [specialize (Hn2 I)| |tauto|];
    destruct Hmin as [m1 Hm1 Hc1 _|m1 Hm1 Hc1| |Ho1]; destruct smin; unfold dle;
    cbn [SFcompare]; try reflexivity; try (destruct Hs as [Hs|Hs]; [discriminate|]);
    try lia;
    match goal with |- context [Z.compare ?x ?y] => destruct (Z.compare_spec x y) end;
    try reflexivity; try lia;
    change (PosDef.Pos.compare_cont Eq) with Pos.compare;
    match goal with |- context [Pos.compare ?x ?y] => destruct (Pos.compare_spec x y) end;
    try reflexivity; lia.
Qed.

(** For every tolerance that is not negative (and not a NaN) the lower
    bound of the window is at most the upper bound, as computed. *)
Lemma tolerance_window (ald : double) :
  dle (double_of_int 0) ald = true ->
  dle (minRatio ald) (maxRatio ald) = true.
Proof.
  unfold minRatio, maxRatio, dsub, dadd. intros Hpos.
  destruct ald as [s|s| |s m e].
  { destruct s; reflexivity. }
  { destruct s; [discriminate|reflexivity]. }
  { discriminate. }
  destruct s; [discriminate|]. clear Hpos.
  change (double_of_int 1) with (S754_finite false 4503599627370496 (-52)).
  unfold SFsub, SFadd. cbv zeta.
  set (ez := Z.min (-52) e).
  destruct (shl_align_spec 4503599627370496 (-52) ez) as (a & -> & Ha & _).
  destruct (shl_align_spec m e ez) as (b & -> & Hb & _).
  cbn [fst cond_Zopp].
  replace (Z.min (-52) ez) with ez in Ha by (unfold ez; lia).
  assert (HA : Z.pos a = 2 ^ (- ez)).
  { rewrite Ha. change (Z.pos 4503599627370496) with (2 ^ 52).
    rewrite <- Z.pow_add_r by (unfold ez; lia). f_equal. lia. }
  assert (Hmax : round_shape false (fexp 53 1024 (Z.pos (digits2_pos (a + b)) + ez)) True
                   (binary_normalize 53 1024 (Z.pos a + Z.pos b) ez false)).
  { change (Z.pos a + Z.pos b) with (Z.pos (a + b)). cbn [binary_normalize].
    pose proof (binary_round_shape false (a + b) ez) as H. cbv zeta in H.
    assert (Hd : - ez + 1 <= Z.pos (digits2_pos (a + b))).
    { apply digits_lower. rewrite Pos2Z.inj_add. lia. }
    destruct H as [m2 ? ? Hn| | Hz |]; try (constructor; assumption).
    - constructor; try assumption. intros _. apply Hn. lia.
    - exfalso. apply Hz. lia. }
  assert (Hcmax : -52 <= fexp 53 1024 (Z.pos (digits2_pos (a + b)) + ez)).
  { rewrite fexp_eq.
    assert (- ez + 1 <= Z.pos (digits2_pos (a + b))).
    { apply digits_lower. rewrite Pos2Z.inj_add. lia. }
    lia. }
  destruct (Z.pos a - Z.pos b) as [|q|q] eqn:Ediff.
  - cbn [binary_normalize].
    apply (dle_shapes false (-1074) _ False _ _ (shape_zero false (-1074) False (fun H => H)) Hmax);
      [right; lia|assumption].
  - cbn [binary_normalize].
    apply (dle_shapes false _ _ _ _ _ (binary_round_shape false q ez) Hmax); [|assumption].
    right. rewrite fexp_eq.
    assert (Z.pos (digits2_pos q) <= - ez).
    { apply digits_upper; [unfold ez; lia|]. lia. }
    lia.
  - cbn [binary_normalize].
    apply (dle_shapes true _ _ _ _ _ (binary_round_shape true q ez) Hmax); [|assumption].
    left. reflexivity.
Qed.

(** ** The early returns and the ratio filter *)

Section Filter.
Context {ext : External}.

Lemma align_chain_empty_iff (s1 s2 : string) (seedChain : list TSeed) (bandSize : Z)
    (ald : double) :
  align_chain s1 s2 seedChain bandSize ald = ""%string
  <-> seedChain = []
      \/ seq2Span seedChain = 0
      \/ ratio_out_of_tolerance seedChain ald = true
      \/ alignment_rows s1 s2 seedChain bandSize = (""%string, ""%string).
Proof.
  unfold align_chain, align_banded.
  destruct (Z.eqb_spec (Z.of_nat (length seedChain)) 0) as [H0|H0].
  { split; [|done]. left. destruct seedChain; [done|simpl in H0; lia]. }
  assert (Hne : seedChain <> []) by (intros ->; simpl in H0; lia).
  destruct (Z.eqb_spec (seq2Span seedChain) 0) as [Hs|Hs]; [tauto|].
  destruct (ratio_out_of_tolerance seedChain ald); [tauto|].
  destruct (alignment_rows s1 s2 seedChain bandSize) as [a b].
  destruct (Z.eqb_spec (Z.max (size a) (size b)) 0) as [Hmax|Hmax].
  - split; [|done]. intros _. do 3 right.
    unfold size in Hmax. destruct a, b; simpl in Hmax; try lia. done.
  - split.
    + intros H. by apply finalString_nonempty in H.
    + intros [?|[?|[?|H]]]; try done. injection H as -> ->. done.
Qed.

(** C5.  semiGlobalAlign returns the empty string exactly when the k-mer
    stage returns and then the seed chain is empty, or its span on seq2 is
    0, or its span ratio is out of tolerance, or both rows of the banded
    alignment are empty; every other returned result is a full record. *)
Theorem empty_result_iff (s1 s2 : string) (s1Len s2Len kSize bandSize : Z)
    (ald : double) :
  (semiGlobalAlign s1 s2 s1Len s2Len kSize bandSize ald = Returned ""%string
   <-> exists seedChain : list TSeed,
         input_seedChain s1 s2 s1Len s2Len kSize = Returned seedChain
         /\ (seedChain = []
             \/ seq2Span seedChain = 0
             \/ ratio_out_of_tolerance seedChain ald = true
             \/ alignment_rows s1 s2 seedChain bandSize = (""%string, ""%string)))
  /\ (forall res : string,
        semiGlobalAlign s1 s2 s1Len s2Len kSize bandSize ald = Returned res ->
        res <> ""%string ->
        exists a b : string,
          input_rows s1 s2 s1Len s2Len kSize bandSize = Returned (a, b)
          /\ res = finalString to_string_double (cigar_stats a b) (time7 - time1)).
Proof.
  split.
  - rewrite semiGlobalAlign_chain.
    destruct (input_seedChain s1 s2 s1Len s2Len kSize) as [chain|e]; simpl.
    + split.
      * intros H. injection H as H. exists chain. split; [done|].
        by apply align_chain_empty_iff.
      * intros (chain' & Hc & H). injection Hc as <-.
        f_equal. by apply align_chain_empty_iff.
    + split; [done|]. by intros (chain' & Hc & _).
  - intros res Hres Hne.
    destruct (semiGlobalAlign_rows _ _ _ _ _ _ _ _ Hres Hne) as (a & b & Hr & _ & ->).
    by exists a, b.
Qed.

(** C6 (amended).  For a non-empty chain whose span on seq2 is not 0, the
    filter rejects, and the result is the empty string, exactly when the
    computed ratio is strictly below [1 - allowedLengthDiscrepancy] or
    strictly above [1 + allowedLengthDiscrepancy]; otherwise the chain goes
    on to the banded alignment.  A ratio equal to either bound is accepted
    provided the window is not empty, that is
    [1 - allowedLengthDiscrepancy <= 1 + allowedLengthDiscrepancy] as
    computed, and so for every tolerance that is not negative. *)
Theorem ratio_filter_boundary (s1 s2 : string) (seedChain : list TSeed)
    (bandSize : Z) (ald : double) :
  seedChain <> [] ->
  seq2Span seedChain <> 0 ->
  (ratio_out_of_tolerance seedChain ald = true
   <-> dlt (ratio seedChain) (minRatio ald) = true
       \/ dgt (ratio seedChain) (maxRatio ald) = true)
  /\ (ratio_out_of_tolerance seedChain ald = true ->
      align_chain s1 s2 seedChain bandSize ald = ""%string)
  /\ (ratio_out_of_tolerance seedChain ald = false ->
      align_chain s1 s2 seedChain bandSize ald = align_banded s1 s2 seedChain bandSize)
  /\ (dle (minRatio ald) (maxRatio ald) = true ->
      deq (ratio seedChain) (minRatio ald) = true
      \/ deq (ratio seedChain) (maxRatio ald) = true ->
      ratio_out_of_tolerance seedChain ald = false)
  /\ (dle (double_of_int 0) ald = true ->
      deq (ratio seedChain) (minRatio ald) = true
      \/ deq (ratio seedChain) (maxRatio ald) = true ->
      ratio_out_of_tolerance seedChain ald = false).
Proof.
  intros Hne Hspan.
  assert (Hlen : (Z.of_nat (length seedChain) =? 0) = false).
  { apply Z.eqb_neq. destruct seedChain; [done|simpl; lia]. }
  apply Z.eqb_neq in Hspan.
  assert (Hboundary :
            dle (minRatio ald) (maxRatio ald) = true ->
            deq (ratio seedChain) (minRatio ald) = true
            \/ deq (ratio seedChain) (maxRatio ald) = true ->
            ratio_out_of_tolerance seedChain ald = false).
  { intros Hwin [Heq|Heq]; unfold ratio_out_of_tolerance; apply orb_false_iff; split.
    - by apply deq_not_dlt.
    - by apply deq_dle_not_dgt with (y := minRatio ald).
    - by apply deq_dle_not_dlt with (z := maxRatio ald).
    - by apply deq_not_dgt. }
  split; [apply orb_true_iff|].
  split; [|split; [|split]].
  - intros H. unfold align_chain. by rewrite Hlen, Hspan, H.
  - intros H. unfold align_chain. by rewrite Hlen, Hspan, H.
  - exact Hboundary.
  - intros Hpos. apply Hboundary. by apply tolerance_window.
Qed.

(** The condition on the window cannot be dropped: when the lower bound is
    above the upper bound, a ratio equal to the lower bound is rejected. *)
Lemma ratio_filter_empty_window (seedChain : list TSeed) (ald : double) :
  dgt (minRatio ald) (maxRatio ald) = true ->
  deq (ratio seedChain) (minRatio ald) = true ->
  ratio_out_of_tolerance seedChain ald = true.
Proof.
  unfold ratio_out_of_tolerance, dgt, deq, dlt. intros Hwin Heq.
  destruct (SFcompare (ratio seedChain) (minRatio ald)) as [[]|] eqn:E; try done.
  rewrite (SFcompare_eq_l _ _ (maxRatio ald) E).
  by destruct (SFcompare (minRatio ald) (maxRatio ald)) as [[]|].
Qed.

End Filter.

Lemma ratio_filter_boundary_witness :
  let seedChain := [mkSeed 0 0 9 10] in
  (ratio_out_of_tolerance seedChain one_tenth = true
   <-> dlt (ratio seedChain) (minRatio one_tenth) = true
       \/ dgt (ratio seedChain) (maxRatio one_tenth) = true)
  /\ (ratio_out_of_tolerance seedChain one_tenth = true ->
      @align_chain (scripted seedChain ("AC", "AC")%string) "AC" "AC" seedChain 10 one_tenth
      = ""%string)
  /\ (ratio_out_of_tolerance seedChain one_tenth = false ->
      @align_chain (scripted seedChain ("AC", "AC")%string) "AC" "AC" seedChain 10 one_tenth
      = @align_banded (scripted seedChain ("AC", "AC")%string) "AC" "AC" seedChain 10)
  /\ (dle (minRatio one_tenth) (maxRatio one_tenth) = true ->
      deq (ratio seedChain) (minRatio one_tenth) = true
      \/ deq (ratio seedChain) (maxRatio one_tenth) = true ->
      ratio_out_of_tolerance seedChain one_tenth = false)
  /\ (dle (double_of_int 0) one_tenth = true ->
      deq (ratio seedChain) (minRatio one_tenth) = true
      \/ deq (ratio seedChain) (maxRatio one_tenth) = true ->
      ratio_out_of_tolerance seedChain one_tenth = false).
Proof.
  apply (@ratio_filter_boundary (scripted [mkSeed 0 0 9 10] ("AC", "AC")%string)
           "AC" "AC" [mkSeed 0 0 9 10] 10 one_tenth).
  - done.
  - by vm_compute.
Defined.

(** With the tolerance 0.1 the ratios 9/10 and 11/10 are the two bounds as
    computed, and both chains pass the filter. *)
Example ratio_filter_at_one_tenth :
  dle (minRatio one_tenth) (maxRatio one_tenth) = true
  /\ deq (ratio [mkSeed 0 0 9 10]) (minRatio one_tenth) = true
  /\ ratio_out_of_tolerance [mkSeed 0 0 9 10] one_tenth = false
  /\ deq (ratio [mkSeed 0 0 11 10]) (maxRatio one_tenth) = true
  /\ ratio_out_of_tolerance [mkSeed 0 0 11 10] one_tenth = false
  /\ ratio_out_of_tolerance [mkSeed 0 0 89 100] one_tenth = true
  /\ ratio_out_of_tolerance [mkSeed 0 0 111 100] one_tenth = true.
Proof. by vm_compute. Qed.

(** With the tolerance -0.5 the bounds are 1.5 and 0.5; a chain of ratio
    3/2, equal to [1 - allowedLengthDiscrepancy], is rejected because it is
    above [1 + allowedLengthDiscrepancy]. *)
Lemma ratio_filter_boundary_counterexample :
  let seedChain := [mkSeed 0 0 3 2] in
  deq (ratio seedChain) (minRatio minus_half) = true
  /\ dgt (ratio seedChain) (maxRatio minus_half) = true
  /\ ratio_out_of_tolerance seedChain minus_half = true
  /\ @semiGlobalAlign (scripted seedChain ("ACG", "AC-")%string)
       "ACG" "AC" 3 2 1 10 minus_half
     = Returned ""%string.
Proof. by vm_compute. Qed.

Lemma empty_result_examples :
  @semiGlobalAlign (scripted [] ("ACG", "ACG")%string) "AAAA" "CCCC" 4 4 2 10 one_tenth
  = Returned ""%string
  /\ @semiGlobalAlign (scripted [mkSeed 0 3 2 3] ("ACG", "ACG")%string)
       "ACGT" "ACGT" 4 4 2 10 one_tenth
     = Returned ""%string
  /\ @semiGlobalAlign (scripted [mkSeed 0 0 2 4] ("ACG", "ACG")%string)
       "ACGT" "ACGT" 4 4 2 10 one_tenth
     = Returned ""%string
  /\ @semiGlobalAlign (scripted [mkSeed 0 0 2 2] ("", "")%string)
       "ACGT" "ACGT" 4 4 2 10 one_tenth
     = Returned ""%string.
Proof. by vm_compute. Qed.

(** * Further properties *)

(** ** The C string handed to the caller *)

Lemma read_c_string_app (s : string) (rest : list ascii) :
  lacks NUL s ->
  read_c_string (list_ascii_of_string s ++ NUL :: rest) = s.
Proof.
  induction s as [|c s IH]; intros Hs; simpl; [done|].
  destruct Hs as [Hc Hs].
  destruct (Ascii.eqb_spec c NUL) as [->|_]; [done|]. by rewrite IH.
Qed.

(** X1.  cppStringToCString and a C reader: the buffer holds one character more
    than the string, and the reader gets the string back exactly when the
    string holds no NUL. *)
Theorem cppStringToCString_round_trip (cpp_string : string) :
  length (cppStringToCString cpp_string) = S (String.length cpp_string)
  /\ last (cppStringToCString cpp_string) = Some NUL
  /\ (read_c_string (cppStringToCString cpp_string) = cpp_string
      <-> lacks NUL cpp_string).
Proof.
  unfold cppStringToCString. split; [|split].
  - rewrite length_app. simpl.
    induction cpp_string as [|c s IH]; simpl in *; lia.
  - apply last_snoc.
  - split; [|apply read_c_string_app].
    induction cpp_string as [|c s IH]; simpl; [done|].
    destruct (Ascii.eqb_spec c NUL) as [->|Hc]; [done|].
    intros H. injection H as H. auto.
Qed.

(** ** Numerals and separators *)

Lemma lacks_app (c : ascii) (a b : string) :
  lacks c a -> lacks c b -> lacks c (a +:+ b).
Proof.
  induction a as [|x a IH]; intros Ha Hb; [done|].
  rewrite string_app_cons. destruct Ha as [Hx Ha]. split; [done|]. by apply IH.
Qed.

Lemma lacks_uint (c : ascii) (d : uint) :
  c ∉ ["0"; "1"; "2"; "3"; "4"; "5"; "6"; "7"; "8"; "9"]%char ->
  lacks c (NilEmpty.string_of_uint d).
Proof.
  intros Hc. induction d; simpl; try done; (split; [|done]);
    intros <-; apply Hc; repeat ((by left) || right).
Qed.

Lemma lacks_to_string (c : ascii) (n : Z) :
  c ∉ ["-"; "0"; "1"; "2"; "3"; "4"; "5"; "6"; "7"; "8"; "9"]%char ->
  lacks c (to_string n).
Proof.
  intros Hc.
  assert (Hd : c ∉ ["0"; "1"; "2"; "3"; "4"; "5"; "6"; "7"; "8"; "9"]%char).
  { intros H. apply Hc. by right. }
  assert (Hu : forall d, lacks c (NilZero.string_of_uint d)).
  { intros d. unfold NilZero.string_of_uint.
    pose proof (lacks_uint c d Hd) as H.
    destruct d; try done. split; [|done]. intros <-. apply Hd. by left. }
  unfold to_string, NilZero.string_of_int.
  destruct (Z.to_int n) as [d|d]; [apply Hu|].
  split; [|apply Hu]. intros <-. apply Hc. by left.
Qed.

Lemma lacks_no_comma (s : string) : no_comma s -> lacks "," s.
Proof.
  unfold no_comma. induction s as [|c s IH]; simpl; [done|].
  destruct (Ascii.eqb_spec c ","%char) as [->|Hc]; [done|].
  intros H. injection H as H. auto.
Qed.

Lemma split_on_lacks (sep : ascii) (s : string) :
  lacks sep s -> split_on sep s = [s].
Proof.
  induction s as [|c s IH]; intros Hs; simpl; [done|].
  destruct Hs as [Hc Hs].
  destruct (Ascii.eqb_spec c sep) as [->|_]; [done|]. by rewrite IH.
Qed.

Lemma split_on_sep (sep : ascii) (a b : string) :
  lacks sep a ->
  split_on sep (a +:+ String sep b) = a :: split_on sep b.
Proof.
  induction a as [|c a IH]; intros Ha.
  - rewrite string_app_nil_l. simpl. by rewrite Ascii.eqb_refl.
  - destruct Ha as [Hc Ha]. rewrite string_app_cons. simpl.
    destruct (Ascii.eqb_spec c sep) as [->|_]; [done|]. by rewrite IH.
Qed.

Lemma read_int_to_string (n : Z) : read_int (to_string n) = Some n.
Proof.
  unfold read_int, to_string.
  rewrite NilZero.isi.
  - simpl. f_equal. destruct n as [|p|p]; [done| |]; simpl;
      unfold Z.of_uint; by rewrite DecimalPos.Unsigned.of_to.
  - destruct n as [|p|p]; simpl; try done.
    intros H. injection H as H. by apply DecimalPos.Unsigned.to_uint_nonnil in H.
  - destruct n as [|p|p]; simpl; try done.
    intros H. injection H as H. by apply DecimalPos.Unsigned.to_uint_nonnil in H.
Qed.

(** ** vectorToString *)

Lemma vectorToString_loop_later (i : Z) (v : list Z) (ss : string) :
  0 < i -> vectorToString_loop i v ss = ss +:+ semicolon_tail v.
Proof.
  revert i ss. induction v as [|x v IH]; intros i ss Hi; simpl.
  - by rewrite string_app_nil_r.
  - destruct (Z.eqb_spec i 0) as [->|_]; [lia|].
    rewrite IH by lia. by rewrite !string_app_assoc.
Qed.

Lemma vectorToString_cons (x : Z) (v : list Z) :
  vectorToString (x :: v) = to_string x +:+ semicolon_tail v.
Proof.
  unfold vectorToString. simpl. rewrite vectorToString_loop_later by lia.
  by rewrite string_app_nil_l.
Qed.

Lemma to_string_nonempty (n : Z) : to_string n <> ""%string.
Proof.
  intros H. pose proof (read_int_to_string n) as R. rewrite H in R. done.
Qed.

Lemma split_semicolon_tail (x : Z) (v : list Z) :
  split_on ";" (to_string x +:+ semicolon_tail v) = to_string x :: map to_string v.
Proof.
  assert (Hl : forall n, lacks ";" (to_string n)).
  { intros n. apply lacks_to_string. intros H.
    repeat (apply elem_of_cons in H as [H|H]; [discriminate|]).
    by apply elem_of_nil in H. }
  revert x. induction v as [|y v IH]; intros x; simpl.
  - rewrite string_app_nil_r. by apply split_on_lacks.
  - rewrite string_app_cons, string_app_nil_l, split_on_sep by done.
    by rewrite IH.
Qed.

Lemma concat_semicolon_tail (x : Z) (v : list Z) :
  String.concat ";" (map to_string (x :: v)) = to_string x +:+ semicolon_tail v.
Proof.
  revert x. induction v as [|y v IH]; intros x.
  - simpl. by rewrite string_app_nil_r.
  - change (String.concat ";" (map to_string (x :: y :: v)))
      with (to_string x +:+ ";" +:+ String.concat ";" (map to_string (y :: v))).
    by rewrite IH.
Qed.

Lemma mapM_read_int (v : list Z) : mapM read_int (map to_string v) = Some v.
Proof.
  induction v as [|x v IH]; [done|].
  simpl. rewrite read_int_to_string. simpl. by rewrite IH.
Qed.

(** X2.  vectorToString writes the decimal numerals of the vector with a
    semicolon between two of them (nothing for the empty vector), and
    reading the text back gives the vector. *)
Theorem vectorToString_round_trip (v : list Z) :
  vectorToString v = String.concat ";" (map to_string v)
  /\ (vectorToString v = ""%string <-> v = [])
  /\ (v <> [] -> split_on ";" (vectorToString v) = map to_string v)
  /\ read_positions (vectorToString v) = Some v.
Proof.
  destruct v as [|x v].
  - repeat split; done.
  - rewrite vectorToString_cons, concat_semicolon_tail.
    assert (Hne : to_string x +:+ semicolon_tail v <> ""%string).
    { pose proof (to_string_nonempty x) as H.
      destruct (to_string x); [done|]. by rewrite string_app_cons. }
    split; [done|]. split; [by split|]. split.
    + intros _. apply split_semicolon_tail.
    + unfold read_positions.
      destruct (to_string x +:+ semicolon_tail v) eqn:E; [done|].
      rewrite <- E, split_semicolon_tail.
      apply (mapM_read_int (x :: v)).
Qed.

(** ** The fields of the record *)

Lemma lacks_semicolon_tail (c : ascii) (v : list Z) :
  c ∉ ["-"; "0"; "1"; "2"; "3"; "4"; "5"; "6"; "7"; "8"; "9"]%char ->
  c <> ";"%char ->
  lacks c (semicolon_tail v).
Proof.
  intros Hc Hs. induction v as [|x v IH]; [done|].
  change (semicolon_tail (x :: v))
    with (String ";" (to_string x +:+ semicolon_tail v)).
  split; [congruence|]. apply lacks_app; [by apply lacks_to_string|done].
Qed.

Lemma lacks_comma_vectorToString (v : list Z) : lacks "," (vectorToString v).
Proof.
  assert (Hc : ","%char ∉ ["-"; "0"; "1"; "2"; "3"; "4"; "5"; "6"; "7"; "8"; "9"]%char).
  { intros H. repeat (apply elem_of_cons in H as [H|H]; [discriminate|]).
    by apply elem_of_nil in H. }
  destruct v as [|x v]; [done|].
  rewrite vectorToString_cons.
  apply lacks_app; [by apply lacks_to_string|by apply lacks_semicolon_tail].
Qed.

Lemma lacks_comma_to_string (n : Z) : lacks "," (to_string n).
Proof. apply lacks_no_comma, no_comma_to_string. Qed.

Lemma split_on_comma (a b : string) :
  lacks "," a -> split_on "," (a +:+ "," +:+ b) = a :: split_on "," b.
Proof. intros Ha. by apply (split_on_sep "," a b). Qed.

Lemma finalString_fields (f : double -> string) (r : CigarStats) (ms : Z) :
  lacks "," (out_cigarString r) ->
  lacks "," (f (out_percentIdentity r)) ->
  split_on "," (finalString f r ms)
  = [out_cigarString r;
     to_string (out_s1Start r); to_string (out_s1End r);
     to_string (out_s2Start r); to_string (out_s2End r);
     to_string (out_alignedLength r);
     to_string (out_matchCount r);
     to_string (out_mismatchCount r); vectorToString (out_s2MismatchPositions r);
     to_string (out_insertionCount r); vectorToString (out_s2InsertionPositions r);
     to_string (out_deletionCount r); vectorToString (out_s2DeletionPositions r);
     to_string (out_editDistance r);
     f (out_percentIdentity r);
     to_string ms].
Proof.
  intros Hc Hf. unfold finalString.
  repeat (rewrite split_on_comma;
          [|first [assumption | apply lacks_comma_to_string
                  | apply lacks_comma_vectorToString]]).
  by rewrite split_on_lacks by apply lacks_comma_to_string.
Qed.

Section Record.
Context {ext : External}.

(** X3.  A non-empty result of semiGlobalAlign cut at its commas: provided the
    text of the percent identity holds no comma, there are exactly sixteen
    fields, in the order CIGAR, s1Start, s1End, s2Start, s2End,
    alignedLength, matchCount, mismatchCount, mismatch positions,
    insertionCount, insertion positions, deletionCount, deletion positions,
    editDistance, percentIdentity, milliseconds. *)
Theorem record_fields (s1 s2 : string) (s1Len s2Len kSize bandSize : Z)
    (ald : double) (res a b : string) :
  semiGlobalAlign s1 s2 s1Len s2Len kSize bandSize ald = Returned res ->
  res <> ""%string ->
  input_rows s1 s2 s1Len s2Len kSize bandSize = Returned (a, b) ->
  lacks "," (to_string_double (out_percentIdentity (cigar_stats a b))) ->
  let r := cigar_stats a b in
  length (split_on "," res) = 16%nat
  /\ split_on "," res
     = [out_cigarString r;
        to_string (out_s1Start r); to_string (out_s1End r);
        to_string (out_s2Start r); to_string (out_s2End r);
        to_string (out_alignedLength r);
        to_string (out_matchCount r);
        to_string (out_mismatchCount r); vectorToString (out_s2MismatchPositions r);
        to_string (out_insertionCount r); vectorToString (out_s2InsertionPositions r);
        to_string (out_deletionCount r); vectorToString (out_s2DeletionPositions r);
        to_string (out_editDistance r);
        to_string_double (out_percentIdentity r);
        to_string (time7 - time1)].
Proof.
  intros Hres Hne Hrows Hpct.
  destruct (semiGlobalAlign_rows _ _ _ _ _ _ _ _ Hres Hne) as (a' & b' & Hrows' & _ & ->).
  rewrite Hrows in Hrows'. injection Hrows' as <- <-.
  cbv zeta. rewrite finalString_fields; [done| |done].
  apply lacks_no_comma. unfold cigar_stats.
  rewrite cigar_string_reported. apply no_comma_render.
Qed.

End Record.

Lemma record_fields_witness :
  let world := scripted [mkSeed 0 0 3 3] ("ACGT-ACGT", "ACGTTACGT")%string in
  let r := cigar_stats "ACGT-ACGT" "ACGTTACGT" in
  length (split_on "," "M4D1M4,0,8,0,9,9,8,0,,0,,1,4,1,88.888889,0") = 16%nat
  /\ split_on "," "M4D1M4,0,8,0,9,9,8,0,,0,,1,4,1,88.888889,0"
     = [out_cigarString r;
        to_string (out_s1Start r); to_string (out_s1End r);
        to_string (out_s2Start r); to_string (out_s2End r);
        to_string (out_alignedLength r);
        to_string (out_matchCount r);
        to_string (out_mismatchCount r); vectorToString (out_s2MismatchPositions r);
        to_string (out_insertionCount r); vectorToString (out_s2InsertionPositions r);
        to_string (out_deletionCount r); vectorToString (out_s2DeletionPositions r);
        to_string (out_editDistance r);
        @to_string_double world (out_percentIdentity r);
        to_string (@time7 world - @time1 world)].
Proof.
  intros world.
  apply (@record_fields world
           "ACGTACGT" "ACGTTACGT" 8 9 3 10 (S754_zero false)
           "M4D1M4,0,8,0,9,9,8,0,,0,,1,4,1,88.888889,0" "ACGT-ACGT" "ACGTTACGT").
  - by vm_compute.
  - done.
  - by vm_compute.
  - vm_compute. repeat split; discriminate.
Defined.

(** ** getSeqKmers for any declared length *)

Lemma getSeqKmers_loop_returns (s : string) (kSize : Z) (todo i : nat)
    (kmers : list Kmer) :
  Z.of_nat i + Z.of_nat todo <= size s + 1 ->
  Z.of_nat i + Z.of_nat todo < 2 ^ 64 ->
  getSeqKmers_loop s kSize todo (Z.of_nat i) kmers
  = Returned
      (kmers
       ++ map (fun j : nat =>
                 (substring j (Z.to_nat (Z.min (size_t_of_int kSize) (size s - Z.of_nat j))) s,
                  Z.of_nat j, Z.of_nat j + kSize))
              (seq i todo)).
Proof.
  revert i kmers. induction todo as [|todo IH]; intros i kmers Hle Hlt; simpl.
  - by rewrite app_nil_r.
  - unfold substr. rewrite (size_t_of_int_small (Z.of_nat i)) by lia.
    destruct (Z.ltb_spec (size s) (Z.of_nat i)) as [|_]; [lia|]. simpl.
    replace (Z.of_nat i + 1) with (Z.of_nat (S i)) by lia.
    rewrite IH by lia. by rewrite Nat2Z.id, <- app_assoc.
Qed.

Lemma getSeqKmers_loop_out_of_range (s : string) (kSize : Z) (todo i : nat)
    (kmers : list Kmer) :
  Z.of_nat i <= size s + 1 ->
  size s + 1 < Z.of_nat i + Z.of_nat todo ->
  Z.of_nat i + Z.of_nat todo < 2 ^ 64 ->
  getSeqKmers_loop s kSize todo (Z.of_nat i) kmers = Thrown out_of_range.
Proof.
  revert i kmers. induction todo as [|todo IH]; intros i kmers Hi Hgt Hlt; [lia|].
  simpl. unfold substr. rewrite (size_t_of_int_small (Z.of_nat i)) by lia.
  destruct (Z.ltb_spec (size s) (Z.of_nat i)) as [|Hle]; [done|]. simpl.
  replace (Z.of_nat i + 1) with (Z.of_nat (S i)) by lia.
  apply IH; lia.
Qed.

Lemma reserve_int (n : Z) : 0 <= n < 2 ^ 32 -> reserve n = Returned tt.
Proof.
  intros Hn. unfold reserve. rewrite size_t_of_int_small by lia.
  assert (Hv : 2 ^ 32 < vector_max_size) by (vm_compute; done).
  destruct (Z.ltb_spec vector_max_size n); [lia|done].
Qed.

(** X4.  getSeqKmers trusts the length it is told.  As long as [kCount],
    the declared length minus [kSize], fits an [int]: a negative [kCount]
    makes [reserve] throw [std::length_error]; a [kCount] of at most the
    real length plus one gives [kCount] k-mers, whose contents stop at the
    end of the sequence whatever [kSize] says; with a larger [kCount] the
    call returns no list (the position passes the end of the sequence, where
    [substr] throws). *)
Theorem getSeqKmers_outcome (s : string) (strLen kSize : Z) :
  - 2 ^ 31 <= strLen < 2 ^ 31 -> - 2 ^ 31 <= kSize < 2 ^ 31 ->
  - 2 ^ 31 <= strLen - kSize < 2 ^ 31 ->
  let kCount := strLen - kSize in
  (kCount < 0 -> getSeqKmers s strLen kSize = Thrown length_error)
  /\ (0 <= kCount <= size s + 1 ->
      getSeqKmers s strLen kSize
      = Returned
          (map (fun i : nat =>
                  (substring i (Z.to_nat (Z.min (size_t_of_int kSize) (size s - Z.of_nat i))) s,
                   Z.of_nat i, Z.of_nat i + kSize))
               (seq 0 (Z.to_nat kCount))))
  /\ (size s + 1 < kCount ->
      forall kmers : list Kmer, getSeqKmers s strLen kSize <> Returned kmers).
Proof.
  intros Hl Hk Hc0. cbv zeta.
  assert (Hs : 0 <= size s) by (unfold size; lia).
  split; [|split].
  - intros Hneg. apply getSeqKmers_too_long_throws; lia.
  - intros Hc. unfold getSeqKmers. rewrite reserve_int by lia. simpl.
    by rewrite (getSeqKmers_loop_returns s kSize _ 0) by (simpl; lia).
  - intros Hc kmers. unfold getSeqKmers. rewrite reserve_int by lia. simpl.
    by rewrite (getSeqKmers_loop_out_of_range s kSize _ 0) by (simpl; lia).
Qed.

Lemma getSeqKmers_outcome_witness :
  let kCount := 6 - 2 in
  (kCount < 0 -> getSeqKmers "ACG" 6 2 = Thrown length_error)
  /\ (0 <= kCount <= size "ACG" + 1 ->
      getSeqKmers "ACG" 6 2
      = Returned
          (map (fun i : nat =>
                  (substring i (Z.to_nat (Z.min (size_t_of_int 2) (size "ACG" - Z.of_nat i))) "ACG",
                   Z.of_nat i, Z.of_nat i + 2))
               (seq 0 (Z.to_nat kCount))))
  /\ (size "ACG" + 1 < kCount ->
      forall kmers : list Kmer, getSeqKmers "ACG" 6 2 <> Returned kmers).
Proof. apply (getSeqKmers_outcome "ACG" 6 2); vm_compute; split; congruence. Defined.


(** ** getCommonLocations: which pairs of k-mers it reports *)

Lemma store_s1Kmers_Some (s1Kmers : list Kmer) (c : string) (a b : Z) :
  store_s1Kmers s1Kmers !! c = Some (a, b) -> (c, a, b) ∈ s1Kmers.
Proof.
  rewrite store_s1Kmers_lookup.
  destruct (last _) as [[[c' a'] b']|] eqn:E; [|done].
  simpl. intros H. injection H as <- <-.
  apply last_Some_elem_of, list_elem_of_filter in E as [Hc Hin].
  simpl in Hc. by subst c'.
Qed.

Lemma store_s1Kmers_is_Some (s1Kmers : list Kmer) (c : string) :
  is_Some (store_s1Kmers s1Kmers !! c) <-> exists a b : Z, (c, a, b) ∈ s1Kmers.
Proof.
  split.
  - intros [[a b] H]. exists a, b. by apply store_s1Kmers_Some.
  - intros (a & b & Hin). rewrite store_s1Kmers_lookup.
    assert (Hne : filter (fun k : Kmer => k.1.1 = c) s1Kmers <> []).
    { intros Hnil. by apply (filter_nil_not_elem_of _ _ (c, a, b)) in Hnil. }
    apply last_is_Some in Hne as [k Hk]. rewrite Hk. by eexists.
Qed.

Lemma getCommonLocations_elem_of (s1Kmers s2Kmers : list Kmer) (a b c d : Z) :
  (a, b, c, d) ∈ getCommonLocations s1Kmers s2Kmers
  <-> exists content : string,
        (content, c, d) ∈ s2Kmers /\ store_s1Kmers s1Kmers !! content = Some (a, b).
Proof.
  rewrite getCommonLocations_by_lookup, list_elem_of_omap. split.
  - intros ([[content c'] d'] & Hin & Hf). simpl in Hf.
    destruct (store_s1Kmers s1Kmers !! content) as [[a' b']|] eqn:E; [|done].
    simpl in Hf. injection Hf as <- <- <- <-. by exists content.
  - intros (content & Hin & Hl). exists (content, c, d). split; [done|].
    simpl. by rewrite Hl.
Qed.

Lemma getCommonLocations_nil (s1Kmers s2Kmers : list Kmer) :
  getCommonLocations s1Kmers s2Kmers = []
  <-> forall k1 k2 : Kmer, k1 ∈ s1Kmers -> k2 ∈ s2Kmers -> k1.1.1 <> k2.1.1.
Proof.
  split.
  - intros Hnil [[c1 a] b] [[c2 c] d] H1 H2 Heq. simpl in Heq. subst c2.
    destruct (proj2 (store_s1Kmers_is_Some s1Kmers c1)) as [[a' b'] Hl]; [by eauto|].
    assert (Hin : (a', b', c, d) ∈ getCommonLocations s1Kmers s2Kmers).
    { apply getCommonLocations_elem_of. by exists c1. }
    rewrite Hnil in Hin. by apply elem_of_nil in Hin.
  - intros Hno.
    destruct (getCommonLocations s1Kmers s2Kmers) as [|[[[a b] c] d] l] eqn:E; [done|].
    assert (Hin : (a, b, c, d) ∈ getCommonLocations s1Kmers s2Kmers).
    { rewrite E. by left. }
    apply getCommonLocations_elem_of in Hin as (content & H2 & Hl).
    apply store_s1Kmers_Some in Hl.
    by destruct (Hno _ _ Hl H2).
Qed.

Lemma length_omap {A B : Type} (f : A -> option B) (l : list A) :
  (length (omap f l) <= length l)%nat.
Proof.
  induction l as [|x l IH]; [done|].
  cbn [omap list_omap]. destruct (f x); simpl; lia.
Qed.

(** X5.  getCommonLocations reports exactly the pairs of a seq2 k-mer with a
    seq1 k-mer of the same content: every location it lists joins the
    positions of a seq1 k-mer and of a seq2 k-mer with one content; every
    seq2 k-mer whose content occurs among the seq1 k-mers is listed with
    the positions of one of them; the result is empty exactly when the two
    lists share no content; and it never has more entries than there are
    seq2 k-mers. *)
Theorem getCommonLocations_shared_content (s1Kmers s2Kmers : list Kmer) :
  (forall a b c d : Z,
     (a, b, c, d) ∈ getCommonLocations s1Kmers s2Kmers ->
     exists content : string, (content, a, b) ∈ s1Kmers /\ (content, c, d) ∈ s2Kmers)
  /\ (forall (content : string) (a b c d : Z),
        (content, a, b) ∈ s1Kmers -> (content, c, d) ∈ s2Kmers ->
        exists a' b' : Z,
          (content, a', b') ∈ s1Kmers
          /\ (a', b', c, d) ∈ getCommonLocations s1Kmers s2Kmers)
  /\ (getCommonLocations s1Kmers s2Kmers = []
      <-> forall k1 k2 : Kmer, k1 ∈ s1Kmers -> k2 ∈ s2Kmers -> k1.1.1 <> k2.1.1)
  /\ (length (getCommonLocations s1Kmers s2Kmers) <= length s2Kmers)%nat.
Proof.
  split; [|split; [|split]].
  - intros a b c d (content & H2 & Hl)%getCommonLocations_elem_of.
    exists content. split; [by apply store_s1Kmers_Some|done].
  - intros content a b c d H1 H2.
    destruct (proj2 (store_s1Kmers_is_Some s1Kmers content)) as [[a' b'] Hl]; [by eauto|].
    exists a', b'. split; [by apply store_s1Kmers_Some|].
    apply getCommonLocations_elem_of. by exists content.
  - apply getCommonLocations_nil.
  - rewrite getCommonLocations_by_lookup. apply length_omap.
Qed.
(** ** From the two sequences to the common locations *)

Lemma length_substring (n m : nat) (s : string) :
  (n + m <= String.length s)%nat -> String.length (substring n m s) = m.
Proof.
  revert n m. induction s as [|c s IH]; intros n m H; simpl in H.
  - assert (n = 0%nat) as -> by lia. assert (m = 0%nat) as -> by lia. done.
  - destruct n as [|n]; simpl.
    + destruct m as [|m]; simpl; [done|]. f_equal. apply (IH 0%nat). lia.
    + apply IH. lia.
Qed.

Lemma getSeqKmers_true_length (s : string) (kSize : Z) :
  size s < 2 ^ 31 -> 0 <= kSize <= size s ->
  getSeqKmers s (size s) kSize
  = Returned (map (fun i : nat =>
                     (substring i (Z.to_nat kSize) s, Z.of_nat i, Z.of_nat i + kSize))
                  (seq 0 (Z.to_nat (size s - kSize)))).
Proof.
  intros Hs Hk. unfold getSeqKmers. rewrite reserve_int by lia. simpl.
  by rewrite (getSeqKmers_loop_in_range s kSize _ 0) by (simpl; lia).
Qed.

Lemma elem_of_true_kmers (s : string) (kSize : Z) (content : string) (a b : Z) :
  0 <= kSize <= size s ->
  (content, a, b)
    ∈ map (fun i : nat => (substring i (Z.to_nat kSize) s, Z.of_nat i, Z.of_nat i + kSize))
          (seq 0 (Z.to_nat (size s - kSize))) ->
  0 <= a /\ b = a + kSize /\ b < size s
  /\ content = substring (Z.to_nat a) (Z.to_nat kSize) s
  /\ String.length content = Z.to_nat kSize.
Proof.
  intros Hk (i & Heq & Hi)%list_elem_of_fmap.
  injection Heq as -> -> ->. apply elem_of_seq in Hi.
  rewrite Nat2Z.id. repeat split; try lia.
  apply length_substring. unfold size in *. lia.
Qed.

Lemma omap_increasing {A B : Type} (f : A -> option B) (ka : A -> Z) (kb : B -> Z)
    (l : list A) :
  (forall x y, f x = Some y -> kb y = ka x) ->
  StronglySorted Z.lt (map ka l) -> StronglySorted Z.lt (map kb (omap f l)).
Proof.
  intros Hk. induction l as [|x l IH]; intros Hs; [constructor|].
  cbn [omap list_omap]. simpl in Hs. inversion Hs as [|? ? Hl Hx]; subst.
  destruct (f x) as [y|] eqn:E; [|by apply IH].
  simpl. constructor; [by apply IH|].
  apply Forall_forall. intros z Hz.
  apply list_elem_of_fmap in Hz as (y' & -> & Hy').
  apply list_elem_of_omap in Hy' as (x' & Hx' & Hf).
  rewrite (Hk _ _ E), (Hk _ _ Hf).
  rewrite Forall_forall in Hx. apply Hx, list_elem_of_fmap. eauto.
Qed.

Lemma offsets_increasing (f : nat -> Kmer) (i n : nat) :
  (forall j, (f j).1.2 = Z.of_nat j) ->
  StronglySorted Z.lt (map (fun k : Kmer => k.1.2) (map f (seq i n))).
Proof.
  intros Hf. revert i. induction n as [|n IH]; intros i; [constructor|].
  simpl. constructor; [apply IH|].
  apply Forall_forall. intros z Hz.
  apply list_elem_of_fmap in Hz as (k & -> & Hk).
  apply list_elem_of_fmap in Hk as (j & -> & Hj). apply elem_of_seq in Hj.
  rewrite !Hf. lia.
Qed.

(** X6.  The common locations of two sequences are exact k-mer matches: for
    sequences given with their true lengths and [0 <= kSize] at most both
    lengths, every common location [(a, b, c, d)] has [b = a + kSize] and
    [d = c + kSize], both windows end before the last character of their
    sequence, and the [kSize] characters of seq1 from [a] are those of seq2
    from [c]; the locations come in strictly increasing seq2 position. *)
Theorem common_locations_exact_matches (s1 s2 : string) (kSize : Z)
    (s1Kmers s2Kmers : list Kmer) :
  size s1 < 2 ^ 31 -> size s2 < 2 ^ 31 ->
  0 <= kSize -> kSize <= size s1 -> kSize <= size s2 ->
  getSeqKmers s1 (size s1) kSize = Returned s1Kmers ->
  getSeqKmers s2 (size s2) kSize = Returned s2Kmers ->
  (forall a b c d : Z,
     (a, b, c, d) ∈ getCommonLocations s1Kmers s2Kmers ->
     0 <= a /\ b = a + kSize /\ b < size s1
     /\ 0 <= c /\ d = c + kSize /\ d < size s2
     /\ substring (Z.to_nat a) (Z.to_nat kSize) s1
        = substring (Z.to_nat c) (Z.to_nat kSize) s2
     /\ String.length (substring (Z.to_nat a) (Z.to_nat kSize) s1) = Z.to_nat kSize)
  /\ StronglySorted Z.lt
       (map (fun l : CommonLocation => l.1.2) (getCommonLocations s1Kmers s2Kmers)).
Proof.
  intros Hs1 Hs2 Hk Hk1 Hk2 H1 H2.
  rewrite getSeqKmers_true_length in H1, H2 by lia.
  injection H1 as <-. injection H2 as <-. split.
  - intros a b c d (content & Hin2 & Hl)%getCommonLocations_elem_of.
    apply store_s1Kmers_Some, elem_of_true_kmers in Hl as (? & ? & ? & E1 & Hlen); [|lia].
    apply elem_of_true_kmers in Hin2 as (? & ? & ? & E2 & _); [|lia].
    rewrite <- E1, <- E2. repeat split; done.
  - rewrite getCommonLocations_by_lookup.
    apply (omap_increasing _ (fun k : Kmer => k.1.2)).
    + intros [[c x] y] l Hf. simpl in Hf.
      destruct (store_s1Kmers _ !! c) as [[a b]|]; [|done].
      simpl in Hf. by injection Hf as <-.
    + by apply offsets_increasing.
Qed.

Lemma common_locations_exact_matches_witness :
  (forall a b c d : Z,
     (a, b, c, d) ∈ getCommonLocations [("AC"%string, 0, 2); ("CG"%string, 1, 3)]
                                       [("CG"%string, 0, 2); ("GT"%string, 1, 3)] ->
     0 <= a /\ b = a + 2 /\ b < size "ACGT"
     /\ 0 <= c /\ d = c + 2 /\ d < size "CGTA"
     /\ substring (Z.to_nat a) (Z.to_nat 2) "ACGT"
        = substring (Z.to_nat c) (Z.to_nat 2) "CGTA"
     /\ String.length (substring (Z.to_nat a) (Z.to_nat 2) "ACGT") = Z.to_nat 2)
  /\ StronglySorted Z.lt
       (map (fun l : CommonLocation => l.1.2)
            (getCommonLocations [("AC"%string, 0, 2); ("CG"%string, 1, 3)]
                                [("CG"%string, 0, 2); ("GT"%string, 1, 3)])).
Proof.
  apply (common_locations_exact_matches "ACGT" "CGTA" 2); by vm_compute.
Defined.
(** ** semiGlobalAlign before the seed chain *)

Section Kmers.
Context {ext : External}.

(** X7.  semiGlobalAlign lets the exceptions of getSeqKmers through.  With
    [k1 = s1Len - kSize] and [k2 = s2Len - kSize], both fitting an [int]:
    it throws [std::length_error] when [k1] is negative, and when [k1] is
    at most the real length of seq1 plus one and [k2] is negative; it
    returns nothing when [k1] exceeds the real length of seq1 plus one, nor
    when [k1] is fine and [k2] exceeds the real length of seq2 plus one
    (the position passes the end of the sequence, where [substr] throws);
    in every other case both calls return their k-mers and the result is
    that of the seeding and alignment stages on them. *)
Theorem semiGlobalAlign_exceptions (s1 s2 : string) (s1Len s2Len kSize bandSize : Z)
    (ald : double) :
  - 2 ^ 31 <= s1Len < 2 ^ 31 -> - 2 ^ 31 <= s2Len < 2 ^ 31 ->
  - 2 ^ 31 <= kSize < 2 ^ 31 ->
  - 2 ^ 31 <= s1Len - kSize < 2 ^ 31 -> - 2 ^ 31 <= s2Len - kSize < 2 ^ 31 ->
  let k1 := s1Len - kSize in
  let k2 := s2Len - kSize in
  let result := semiGlobalAlign s1 s2 s1Len s2Len kSize bandSize ald in
  (k1 < 0 -> result = Thrown length_error)
  /\ (size s1 + 1 < k1 -> forall res : string, result <> Returned res)
  /\ (0 <= k1 <= size s1 + 1 -> k2 < 0 -> result = Thrown length_error)
  /\ (0 <= k1 <= size s1 + 1 -> size s2 + 1 < k2 ->
      forall res : string, result <> Returned res)
  /\ (0 <= k1 <= size s1 + 1 -> 0 <= k2 <= size s2 + 1 ->
      exists s1Kmers s2Kmers : list Kmer,
        getSeqKmers s1 s1Len kSize = Returned s1Kmers
        /\ getSeqKmers s2 s2Len kSize = Returned s2Kmers
        /\ result
           = Returned (align_chain s1 s2 (seedChain_of (getCommonLocations s1Kmers s2Kmers))
                         bandSize ald)).
Proof.
  intros H1 H2 Hk Hk1 Hk2. cbv zeta. unfold semiGlobalAlign.
  assert (Hs1 : 0 <= size s1) by (unfold size; lia).
  assert (Hs2 : 0 <= size s2) by (unfold size; lia).
  assert (R1 : 0 <= s1Len - kSize <= size s1 + 1 ->
               exists kmers, getSeqKmers s1 s1Len kSize = Returned kmers).
  { intros Hc. unfold getSeqKmers. rewrite reserve_int by lia. simpl.
    rewrite (getSeqKmers_loop_returns s1 kSize _ 0) by (simpl; lia). by eexists. }
  assert (R2 : 0 <= s2Len - kSize <= size s2 + 1 ->
               exists kmers, getSeqKmers s2 s2Len kSize = Returned kmers).
  { intros Hc. unfold getSeqKmers. rewrite reserve_int by lia. simpl.
    rewrite (getSeqKmers_loop_returns s2 kSize _ 0) by (simpl; lia). by eexists. }
  assert (O : forall s strLen, 0 <= size s -> - 2 ^ 31 <= strLen - kSize < 2 ^ 31 ->
              size s + 1 < strLen - kSize ->
              getSeqKmers s strLen kSize = Thrown out_of_range).
  { intros s strLen Hs Hl Hc. unfold getSeqKmers. rewrite reserve_int by lia. simpl.
    apply (getSeqKmers_loop_out_of_range s kSize _ 0); simpl; lia. }
  repeat split.
  - intros Hc. by rewrite (getSeqKmers_too_long_throws s1 s1Len kSize) by lia.
  - intros Hc res. by rewrite (O s1 s1Len) by lia.
  - intros Hc1 Hc2. destruct (R1 Hc1) as [kmers ->]. simpl.
    by rewrite (getSeqKmers_too_long_throws s2 s2Len kSize) by lia.
  - intros Hc1 Hc2 res. destruct (R1 Hc1) as [kmers ->]. simpl.
    by rewrite (O s2 s2Len) by lia.
  - intros Hc1 Hc2. destruct (R1 Hc1) as [kmers1 E1], (R2 Hc2) as [kmers2 E2].
    exists kmers1, kmers2. by rewrite E1, E2.
Qed.


Lemma addSeeds_nil : addSeeds [] = emptySeedSet.
Proof. reflexivity. Qed.

(** X8.  When the two sequences share no k-mer, no seed is added, and, SeqAn
    chaining an empty seed set to an empty chain, semiGlobalAlign returns
    the empty string. *)
Theorem semiGlobalAlign_no_shared_kmer (s1 s2 : string)
    (s1Len s2Len kSize bandSize : Z) (ald : double) (s1Kmers s2Kmers : list Kmer) :
  chainSeedsGlobally emptySeedSet = [] ->
  getSeqKmers s1 s1Len kSize = Returned s1Kmers ->
  getSeqKmers s2 s2Len kSize = Returned s2Kmers ->
  (forall k1 k2 : Kmer, k1 ∈ s1Kmers -> k2 ∈ s2Kmers -> k1.1.1 <> k2.1.1) ->
  semiGlobalAlign s1 s2 s1Len s2Len kSize bandSize ald = Returned ""%string.
Proof.
  intros Hchain H1 H2 Hno. unfold semiGlobalAlign. rewrite H1, H2. simpl.
  apply getCommonLocations_nil in Hno.
  unfold seedChain_of. rewrite Hno, addSeeds_nil, Hchain. done.
Qed.

End Kmers.

Lemma semiGlobalAlign_exceptions_witness :
  let world := scripted [] (""%string, ""%string) in
  let k1 := 2 - 3 in
  let k2 := 4 - 3 in
  let result := @semiGlobalAlign world "AC" "ACGT" 2 4 3 10 (S754_zero false) in
  (k1 < 0 -> result = Thrown length_error)
  /\ (size "AC" + 1 < k1 -> forall res : string, result <> Returned res)
  /\ (0 <= k1 <= size "AC" + 1 -> k2 < 0 -> result = Thrown length_error)
  /\ (0 <= k1 <= size "AC" + 1 -> size "ACGT" + 1 < k2 ->
      forall res : string, result <> Returned res)
  /\ (0 <= k1 <= size "AC" + 1 -> 0 <= k2 <= size "ACGT" + 1 ->
      exists s1Kmers s2Kmers : list Kmer,
        getSeqKmers "AC" 2 3 = Returned s1Kmers
        /\ getSeqKmers "ACGT" 4 3 = Returned s2Kmers
        /\ result
           = Returned (@align_chain world "AC" "ACGT"
                         (@seedChain_of world (getCommonLocations s1Kmers s2Kmers))
                         10 (S754_zero false))).
Proof.
  intros world.
  apply (@semiGlobalAlign_exceptions world "AC" "ACGT" 2 4 3 10 (S754_zero false));
    vm_compute; split; congruence.
Defined.


Lemma semiGlobalAlign_no_shared_kmer_witness :
  let world := scripted [] (""%string, ""%string) in
  @semiGlobalAlign world "AAA" "CCC" 3 3 2 10 (S754_zero false) = Returned ""%string.
Proof.
  intros world.
  apply (@semiGlobalAlign_no_shared_kmer world "AAA" "CCC" 3 3 2 10 (S754_zero false)
           [("AA"%string, 0, 2)] [("CC"%string, 0, 2)]).
  - reflexivity.
  - by vm_compute.
  - by vm_compute.
  - intros k1 k2 H1 H2.
    apply list_elem_of_singleton in H1 as ->. apply list_elem_of_singleton in H2 as ->.
    discriminate.
Defined.
(** ** The CIGAR and the counts of one record *)

Lemma classify_row1 (b : bool) (cols : list (ascii * ascii)) :
  kind_count MATCH (classify b cols) + kind_count INSERTION (classify b cols)
  + kind_count CLIP (classify b cols)
  = row1_bases cols.
Proof.
  induction cols as [|c cols IH] using rev_ind; [done|].
  rewrite classify_snoc, !kind_count_snoc, row1_bases_snoc, <- IH.
  destruct c as [b1 b2], (existsb both_bases cols), b;
    unfold getCigarType, both_bases; simpl;
    destruct (Ascii.eqb b1 gap), (Ascii.eqb b2 gap); simpl; lia.
Qed.

Lemma reported_total_clip (cols : list (ascii * ascii)) (t : CigarType) (n : Z)
    (acc : list (CigarType * Z)) :
  rle_rev (classify false cols) = (t, n) :: acc ->
  run_total CLIP (reported_runs cols)
  = kind_count CLIP (classify false cols) + trailing_cut INSERTION t n.
Proof.
  intros Erle. unfold reported_runs. rewrite Erle.
  rewrite <- (run_total_rle_rev CLIP), Erle, run_total_app, run_total_rev.
  unfold trailing_cut. simpl. destruct t; simpl; lia.
Qed.

Lemma token_totals (cols : list (ascii * ascii)) :
  let r := cigar_stats_of cols in
  let toks := tokens_of (reported_runs cols) in
  token_total "M" toks = out_matchCount r + out_mismatchCount r
  /\ token_total "I" toks = out_insertionCount r
  /\ token_total "D" toks = out_deletionCount r
  /\ token_total "M" toks + token_total "I" toks + token_total "S" toks
     = row1_bases cols.
Proof.
  cbv zeta.
  rewrite (token_total_tokens_of MATCH), (token_total_tokens_of INSERTION),
    (token_total_tokens_of DELETION), (token_total_tokens_of CLIP) by done.
  destruct cols as [|c cols]; [by vm_compute|].
  destruct (classify_nonempty c cols) as (t & n & acc & Erle).
  destruct (cigar_stats_of_fields _ _ _ _ Erle) as (_ & Hi & Hd & _ & _ & Hm & _).
  rewrite !(reported_totals _ _ _ _ _ Erle) by auto.
  rewrite (reported_total_clip _ _ _ _ Erle), Hi, Hd, Hm.
  pose proof (classify_row1 false (c :: cols)) as Hrow.
  simpl bool_decide. cbv iota. repeat split; lia.
Qed.

(** X9.  The CIGAR accounts for every base of the seq1 row: in the CIGAR of any
    alignment the lengths of the M, I and S tokens add up to the number of
    seq1 bases in the alignment. *)
Theorem cigar_covers_seq1_row (cols : list (ascii * ascii)) :
  let toks := tokens_of (reported_runs cols) in
  parse_cigar (out_cigarString (cigar_stats_of cols)) = Some toks
  /\ token_total "M" toks + token_total "I" toks + token_total "S" toks
     = row1_bases cols.
Proof.
  cbv zeta. destruct (cigar_string_tokens cols) as (_ & Hparse & _).
  destruct (token_totals cols) as (_ & _ & _ & Hrow). done.
Qed.

(** X10.  The counts of a record agree with its CIGAR: the M tokens add up to
    the matches plus the mismatches, the I tokens to the insertion count,
    the D tokens to the deletion count, so that the aligned length is the
    total of the M, I and D tokens; the edit distance is the aligned length
    minus the matches and lies between 0 and the aligned length. *)
Theorem counts_agree_with_cigar (cols : list (ascii * ascii)) :
  let r := cigar_stats_of cols in
  let toks := tokens_of (reported_runs cols) in
  parse_cigar (out_cigarString r) = Some toks
  /\ token_total "M" toks = out_matchCount r + out_mismatchCount r
  /\ token_total "I" toks = out_insertionCount r
  /\ token_total "D" toks = out_deletionCount r
  /\ out_alignedLength r
     = token_total "M" toks + token_total "I" toks + token_total "D" toks
  /\ out_editDistance r = out_alignedLength r - out_matchCount r
  /\ 0 <= out_editDistance r <= out_alignedLength r.
Proof.
  cbv zeta. destruct (cigar_string_tokens cols) as (_ & Hparse & _).
  destruct (token_totals cols) as (Hm & Hi & Hd & _).
  destruct (counts_nonneg cols) as (? & ? & ? & ?).
  rewrite Hm, Hi, Hd, alignedLength_unfold.
  assert (He : out_editDistance (cigar_stats_of cols)
               = out_mismatchCount (cigar_stats_of cols)
                 + out_insertionCount (cigar_stats_of cols)
                 + out_deletionCount (cigar_stats_of cols)) by reflexivity.
  rewrite He. repeat split; try done; lia.
Qed.
(** ** The position lists, column by column *)

Lemma length_classify (b : bool) (cols : list (ascii * ascii)) :
  length (classify b cols) = length cols.
Proof. revert b. induction cols as [|c cols IH]; intros b; simpl; [done|]. by rewrite IH. Qed.

Lemma omap_pointwise_in {A B : Type} (f g : A -> option B) (l : list A) :
  (forall x, x ∈ l -> f x = g x) -> omap f l = omap g l.
Proof.
  induction l as [|x l IH]; intros Hfg; [done|].
  cbn [omap list_omap]. rewrite Hfg by (by left). rewrite IH; [done|].
  intros y Hy. apply Hfg. by right.
Qed.

Lemma offsets_where_snoc (sel : CigarType -> ascii * ascii -> bool)
    (p : list (ascii * ascii)) (c : ascii * ascii) :
  offsets_where sel (p ++ [c])
  = offsets_where sel p
    ++ (if sel (getCigarType c.1 c.2 (existsb both_bases p || both_bases c)) c
        then [row2_bases p] else []).
Proof.
  unfold offsets_where. rewrite length_app. simpl length.
  rewrite Nat.add_1_r, seq_S, omap_app, classify_snoc. simpl orb.
  assert (Hlen : length (classify false p) = length p) by apply length_classify.
  f_equal.
  - apply omap_pointwise_in. intros i Hi%elem_of_seq.
    rewrite !lookup_app_l by lia. by rewrite take_app_le by lia.
  - simpl "+"%nat. cbn [omap list_omap].
    rewrite (list_lookup_middle (classify false p) []) by done.
    rewrite (list_lookup_middle p []) by done.
    rewrite take_app_length. by destruct (sel _ c).
Qed.

(** X11.  The three position lists of a record hold, in column order, the number
    of seq2 bases to the left of every mismatch column, of every Insertion
    column and of every Deletion column of the alignment; the match and
    mismatch counts are the numbers of columns with two equal and with two
    different bases. *)
Theorem position_lists_by_column (cols : list (ascii * ascii)) :
  let r := cigar_stats_of cols in
  out_s2MismatchPositions r = offsets_where is_mismatch cols
  /\ out_s2InsertionPositions r = offsets_where (is_kind INSERTION) cols
  /\ out_s2DeletionPositions r = offsets_where (is_kind DELETION) cols
  /\ out_matchCount r = Z.of_nat (length (offsets_where is_match cols))
  /\ out_mismatchCount r = Z.of_nat (length (offsets_where is_mismatch cols)).
Proof.
  cbv zeta. unfold cigar_stats_of, cigar_finish.
  cbn [out_s2MismatchPositions out_s2InsertionPositions out_s2DeletionPositions
       out_matchCount out_mismatchCount].
  induction cols as [|c p IH] using rev_ind; [done|].
  rewrite cigar_loop_snoc, Z.add_0_l, !offsets_where_snoc.
  destruct (loop_inv_loop p) as [Hst _ _ _ _ _ _ _ _ _ Hb2 _ _].
  destruct IH as (Hm & Hi & Hd & Hmc & Hmm).
  set (st := cigar_loop 0 p cigar_init) in *.
  set (om := offsets_where is_match p) in *.
  set (omm := offsets_where is_mismatch p) in *.
  set (oi := offsets_where (is_kind INSERTION) p) in *.
  set (od := offsets_where (is_kind DELETION) p) in *.
  rewrite <- Hst, <- Hb2.
  unfold is_mismatch, is_match, is_kind.
  destruct c as [b1 b2]. unfold cigar_step, getCigarType, both_bases. simpl.
  rewrite Hm, Hi, Hd, Hmc, Hmm.
  destruct (Ascii.eqb b1 gap) eqn:E1, (Ascii.eqb b2 gap) eqn:E2,
    (alignmentStarted st) eqn:Est, (Ascii.eqb b1 b2) eqn:E12; simpl;
    rewrite ?app_nil_r, ?length_app; simpl; repeat split; try done; lia.
Qed.

(** ** The order of the position lists *)

Lemma sorted_snoc (R : Z -> Z -> Prop) (l : list Z) (x : Z) :
  StronglySorted R l -> Forall (fun y => R y x) l -> StronglySorted R (l ++ [x]).
Proof.
  induction 1 as [|a l Hs IH Ha]; intros Hx; simpl; [by repeat constructor|].
  inversion Hx as [|? ? Hax Hlx]; subst.
  constructor; [by apply IH|]. apply Forall_app. by split; [|repeat constructor].
Qed.

Ltac lists_goal :=
  first
    [ done
    | lia
    | apply sorted_snoc;
      [assumption | eapply Forall_impl; [eassumption | simpl; intros; lia]]
    | apply Forall_app; split;
      [eapply Forall_impl; [eassumption | simpl; intros; lia]
      | constructor; [simpl; lia | constructor]]
    | eapply Forall_impl; [eassumption | simpl; intros; lia]
    | by repeat constructor
    | constructor; [simpl; lia | constructor] ].

Lemma lists_inv_step (i : Z) (b1 b2 : ascii) (st : CigarState) :
  lists_inv st -> lists_inv (cigar_step i b1 b2 st).
Proof.
  intros [Hms Hmb His Hib Hds Hdb Hun Hst Hb].
  unfold cigar_step, getCigarType.
  destruct (Ascii.eqb b1 gap) eqn:E1, (Ascii.eqb b2 gap) eqn:E2,
    (alignmentStarted st) eqn:Est, (Ascii.eqb b1 b2) eqn:E12;
    try (specialize (Hst eq_refl));
    try (destruct (Hun eq_refl) as (Hm0 & Hi0 & Hd0); rewrite ?Hm0, ?Hi0, ?Hd0 in *);
    split; simpl; rewrite ?Hm0, ?Hi0, ?Hd0; simpl; intros; lists_goal.
Qed.

Lemma lists_inv_loop (i : Z) (cols : list (ascii * ascii)) (st : CigarState) :
  lists_inv st -> lists_inv (cigar_loop i cols st).
Proof.
  revert i st. induction cols as [|[b1 b2] cols IH]; intros i st Hinv; [done|].
  simpl. by apply IH, lists_inv_step.
Qed.

Lemma lists_inv_init : lists_inv cigar_init.
Proof. split; simpl; try done; constructor. Qed.

(** X12.  The position lists are in order: the mismatch positions are strictly
    increasing, the insertion and the deletion positions never decrease
    (the columns of one Insertion run share a position).  Every mismatch
    position lies from s2Start to below the number of seq2 bases of the
    alignment, every insertion or deletion position above s2Start and at
    most at that number. *)
Theorem position_lists_in_order (cols : list (ascii * ascii)) :
  let r := cigar_stats_of cols in
  StronglySorted Z.lt (out_s2MismatchPositions r)
  /\ StronglySorted Z.le (out_s2InsertionPositions r)
  /\ StronglySorted Z.le (out_s2DeletionPositions r)
  /\ Forall (fun x => out_s2Start r <= x < row2_bases cols) (out_s2MismatchPositions r)
  /\ Forall (fun x => out_s2Start r < x <= row2_bases cols) (out_s2InsertionPositions r)
  /\ Forall (fun x => out_s2Start r < x <= row2_bases cols) (out_s2DeletionPositions r).
Proof.
  cbv zeta.
  destruct (lists_inv_loop 0 cols cigar_init lists_inv_init)
    as [Hms Hmb His Hib Hds Hdb _ _ _].
  destruct (loop_inv_loop cols) as [_ _ _ _ _ _ _ _ _ _ Hb2 _ _].
  rewrite <- Hb2. repeat split; done.
Qed.
(** ** Where the alignment starts *)

Lemma cigar_loop_app (i : Z) (p q : list (ascii * ascii)) (st : CigarState) :
  cigar_loop i (p ++ q) st
  = cigar_loop (i + Z.of_nat (length p)) q (cigar_loop i p st).
Proof.
  revert i st. induction p as [|[a b] p IH]; intros i st.
  - simpl. by rewrite Z.add_0_r.
  - cbn [app cigar_loop length]. rewrite IH. f_equal. lia.
Qed.

Lemma started_keeps_starts (i : Z) (cols : list (ascii * ascii)) (st : CigarState) :
  alignmentStarted st = true ->
  alignmentStarted (cigar_loop i cols st) = true
  /\ s1Start (cigar_loop i cols st) = s1Start st
  /\ s2Start (cigar_loop i cols st) = s2Start st.
Proof.
  revert i st. induction cols as [|[b1 b2] cols IH]; intros i st Hst; [done|].
  cbn [cigar_loop].
  destruct (IH (i + 1) (cigar_step i b1 b2 st)) as (H0 & H1 & H2).
  { unfold cigar_step. simpl. rewrite Hst. by rewrite andb_false_r. }
  rewrite H0, H1, H2. unfold cigar_step. simpl. rewrite Hst.
  by rewrite andb_false_r.
Qed.

Lemma unstarted_kinds (cols : list (ascii * ascii)) :
  existsb both_bases cols = false ->
  kind_count MATCH (classify false cols) = 0
  /\ kind_count INSERTION (classify false cols) = 0
  /\ kind_count DELETION (classify false cols) = 0
  /\ kind_count CLIP (classify false cols) = row1_bases cols.
Proof.
  intros Hex.
  destruct (loop_inv_loop cols) as [Hst _ _ _ _ _ _ _ _ _ _ Hns _].
  rewrite Hex in Hst. destruct (Hns Hst) as (_ & _ & Hm & Hi & Hd).
  pose proof (classify_row1 false cols). repeat split; try done; lia.
Qed.

Lemma starts_of_split (pre post : list (ascii * ascii)) (col : ascii * ascii) :
  existsb both_bases pre = false ->
  both_bases col = true ->
  out_s1Start (cigar_stats_of (pre ++ col :: post)) = row1_bases pre
  /\ out_s2Start (cigar_stats_of (pre ++ col :: post)) = row2_bases pre.
Proof.
  intros Hpre Hcol.
  unfold cigar_stats_of, cigar_finish. cbn [out_s1Start out_s2Start].
  rewrite cigar_loop_app. destruct col as [b1 b2]. cbn [cigar_loop].
  destruct (loop_inv_loop pre) as [Hst _ _ _ _ _ _ _ _ Hb1 Hb2 _ _].
  rewrite Hpre in Hst.
  set (st := cigar_loop 0 pre cigar_init) in *.
  set (i := 0 + Z.of_nat (length pre)).
  unfold both_bases in Hcol. simpl in Hcol.
  destruct (started_keeps_starts (i + 1) post (cigar_step i b1 b2 st)) as (_ & -> & ->).
  { unfold cigar_step. simpl. by rewrite Hcol, Hst. }
  unfold cigar_step. simpl. by rewrite Hcol, Hst.
Qed.

(** X13.  In an alignment that starts, s1Start and s2Start are the numbers of
    seq1 and of seq2 bases to the left of the first column that holds a
    base in both rows; s1Start is also the number of Clip columns there. *)
Theorem starts_count_leading_bases (pre post : list (ascii * ascii))
    (col : ascii * ascii) :
  existsb both_bases pre = false ->
  both_bases col = true ->
  let r := cigar_stats_of (pre ++ col :: post) in
  out_s1Start r = row1_bases pre
  /\ out_s2Start r = row2_bases pre
  /\ out_s1Start r = kind_count CLIP (classify false pre).
Proof.
  intros Hpre Hcol. cbv zeta.
  destruct (unstarted_kinds pre Hpre) as (_ & _ & _ & ->).
  destruct (starts_of_split pre post col Hpre Hcol) as [H1 H2]. done.
Qed.

Lemma starts_count_leading_bases_witness :
  let pre := [("A", "-"); ("-", "C"); ("T", "-")]%char in
  let r := cigar_stats_of (pre ++ ("G", "G")%char :: [("T", "-")%char]) in
  out_s1Start r = row1_bases pre
  /\ out_s2Start r = row2_bases pre
  /\ out_s1Start r = kind_count CLIP (classify false pre).
Proof.
  apply (starts_count_leading_bases [("A", "-"); ("-", "C"); ("T", "-")]%char
           [("T", "-")%char] ("G", "G")%char); reflexivity.
Defined.

(** ** An alignment that never starts *)

Lemma token_total_zero (c : ascii) (toks : list (ascii * Z)) :
  Forall token_ok toks -> token_total c toks = 0 ->
  Forall (fun tok : ascii * Z => tok.1 <> c) toks.
Proof.
  induction 1 as [|tok toks [_ Hn] Hok IH]; intros Hz; [constructor|].
  simpl in Hz.
  assert (Hnn : 0 <= token_total c toks).
  { clear -Hok. induction Hok as [|t l [_ Hl] _ IHl]; simpl; [done|].
    case_bool_decide; lia. }
  case_bool_decide; [lia|]. constructor; [done|by apply IH].
Qed.

(** X14.  When no column holds a base in both rows, the record reports no
    alignment at all: both starts are -1, every count, the aligned length
    and the edit distance are 0, the position lists are empty, the ends are
    the numbers of bases of the two rows, and the CIGAR consists of S
    tokens only, which add up to the number of seq1 bases. *)
Theorem never_started_alignment (cols : list (ascii * ascii)) :
  existsb both_bases cols = false ->
  let r := cigar_stats_of cols in
  let toks := tokens_of (reported_runs cols) in
  out_s1Start r = -1 /\ out_s2Start r = -1
  /\ out_matchCount r = 0 /\ out_mismatchCount r = 0
  /\ out_insertionCount r = 0 /\ out_deletionCount r = 0
  /\ out_alignedLength r = 0 /\ out_editDistance r = 0
  /\ out_s2MismatchPositions r = [] /\ out_s2InsertionPositions r = []
  /\ out_s2DeletionPositions r = []
  /\ out_s1End r = row1_bases cols /\ out_s2End r = row2_bases cols
  /\ parse_cigar (out_cigarString r) = Some toks
  /\ Forall (fun tok : ascii * Z => tok.1 = "S"%char) toks
  /\ token_total "S" toks = row1_bases cols.
Proof.
  intros Hex. cbv zeta.
  destruct (loop_inv_loop cols) as [Hst _ Hm Hnn Hi Hd _ _ _ Hb1 Hb2 Hns _].
  destruct (lists_inv_loop 0 cols cigar_init lists_inv_init)
    as [_ _ _ _ _ _ Hun _ _].
  rewrite Hex in Hst. destruct (Hun Hst) as (Hl1 & Hl2 & Hl3).
  destruct (Hns Hst) as (Hs1 & Hs2 & _).
  destruct (unstarted_kinds cols Hex) as (Hkm & Hki & Hkd & Hkc).
  destruct (cigar_string_tokens cols) as (_ & Hparse & Hok).
  destruct (token_totals cols) as (Htm & Hti & Htd & Hrow).
  destruct (counts_nonneg cols) as (Hc1 & Hc2 & Hc3 & Hc4).
  assert (Hmm : out_matchCount (cigar_stats_of cols) = 0
                /\ out_mismatchCount (cigar_stats_of cols) = 0).
  { change (matchCount (cigar_loop 0 cols cigar_init) = 0
            /\ mismatchCount (cigar_loop 0 cols cigar_init) = 0). lia. }
  destruct Hmm as [Hmc Hmmc].
  assert (Hends : out_insertionCount (cigar_stats_of cols) = 0
                  /\ out_deletionCount (cigar_stats_of cols) = 0
                  /\ out_s1End (cigar_stats_of cols) = row1_bases cols
                  /\ out_s2End (cigar_stats_of cols) = row2_bases cols).
  { destruct cols as [|c cols]; [by vm_compute|].
    destruct (classify_nonempty c cols) as (t & n & acc & Erle).
    destruct (cigar_stats_of_fields _ _ _ _ Erle) as (_ & Ei & Ed & E1 & E2 & _).
    rewrite Ei in Hc3. rewrite Ed in Hc4. rewrite Ei, Ed, E1, E2.
    pose proof (rle_rev_positive (classify false (c :: cols))) as Hpos.
    rewrite Erle in Hpos. inversion Hpos as [|? ? Hn _]; subst. simpl in Hn.
    unfold trailing_cut in *. repeat case_bool_decide; lia. }
  destruct Hends as (Hic & Hdc & He1 & He2).
  assert (Hed : out_editDistance (cigar_stats_of cols)
                = out_mismatchCount (cigar_stats_of cols)
                  + out_insertionCount (cigar_stats_of cols)
                  + out_deletionCount (cigar_stats_of cols)) by reflexivity.
  rewrite alignedLength_unfold, Hed, Hmc, Hmmc, Hic, Hdc.
  rewrite Hmc, Hmmc in Htm. rewrite Hic in Hti. rewrite Hdc in Htd.
  repeat split; try done; [|lia].
  pose proof (token_total_zero "M" _ Hok Htm) as HnM.
  pose proof (token_total_zero "I" _ Hok Hti) as HnI.
  pose proof (token_total_zero "D" _ Hok Htd) as HnD.
  rewrite Forall_forall in Hok, HnM, HnI, HnD. apply Forall_forall.
  intros tok Hin. destruct (Hok tok Hin) as [Hc _].
  specialize (HnM tok Hin). specialize (HnI tok Hin). specialize (HnD tok Hin).
  repeat (apply elem_of_cons in Hc as [Hc|Hc]; [congruence|]).
  by apply elem_of_nil in Hc.
Qed.

Lemma never_started_alignment_witness :
  let cols := columns "AC-" "--G" in
  let r := cigar_stats_of cols in
  let toks := tokens_of (reported_runs cols) in
  out_s1Start r = -1 /\ out_s2Start r = -1
  /\ out_matchCount r = 0 /\ out_mismatchCount r = 0
  /\ out_insertionCount r = 0 /\ out_deletionCount r = 0
  /\ out_alignedLength r = 0 /\ out_editDistance r = 0
  /\ out_s2MismatchPositions r = [] /\ out_s2InsertionPositions r = []
  /\ out_s2DeletionPositions r = []
  /\ out_s1End r = row1_bases cols /\ out_s2End r = row2_bases cols
  /\ parse_cigar (out_cigarString r) = Some toks
  /\ Forall (fun tok : ascii * Z => tok.1 = "S"%char) toks
  /\ token_total "S" toks = row1_bases cols.
Proof. apply (never_started_alignment (columns "AC-" "--G")). reflexivity. Defined.
(** ** The record as a C string *)

Lemma not_special (c : ascii) :
  c = NUL ->
  c ∉ ["-"; "0"; "1"; "2"; "3"; "4"; "5"; "6"; "7"; "8"; "9"]%char.
Proof.
  intros -> H. repeat (apply elem_of_cons in H as [H|H]; [discriminate|]).
  by apply elem_of_nil in H.
Qed.

Lemma lacks_NUL_to_string (n : Z) : lacks NUL (to_string n).
Proof. by apply lacks_to_string, not_special. Qed.

Lemma lacks_NUL_vectorToString (v : list Z) : lacks NUL (vectorToString v).
Proof.
  destruct v as [|x v]; [done|].
  rewrite vectorToString_cons.
  apply lacks_app; [apply lacks_NUL_to_string|].
  by apply lacks_semicolon_tail; [apply not_special|].
Qed.

Lemma lacks_NUL_render (runs : list (CigarType * Z)) : lacks NUL (render runs).
Proof.
  induction runs as [|[t n] runs IH]; [done|].
  change (render ((t, n) :: runs)) with (getCigarPart t n +:+ render runs).
  apply lacks_app; [|done].
  destruct t; cbn [getCigarPart]; try done;
    rewrite string_app_cons, string_app_nil_l;
    (split; [done|apply lacks_NUL_to_string]).
Qed.

Lemma lacks_NUL_finalString (f : double -> string) (r : CigarStats) (ms : Z) :
  lacks NUL (out_cigarString r) ->
  lacks NUL (f (out_percentIdentity r)) ->
  lacks NUL (finalString f r ms).
Proof.
  intros Hc Hf. unfold finalString.
  repeat (apply lacks_app;
          [first [assumption | apply lacks_NUL_to_string
                 | apply lacks_NUL_vectorToString | by split]|]).
  apply lacks_NUL_to_string.
Qed.

Section CString.
Context {ext : External}.

(** X15.  Whatever semiGlobalAlign returns reaches the caller whole: as long as
    the text of the percent identity holds no NUL, the returned string
    holds none, so that the C string built from it reads back as the
    string itself, in a buffer one character longer. *)
Theorem result_survives_c_string (s1 s2 : string) (s1Len s2Len kSize bandSize : Z)
    (ald : double) (res : string) :
  semiGlobalAlign s1 s2 s1Len s2Len kSize bandSize ald = Returned res ->
  (forall a b : string,
     input_rows s1 s2 s1Len s2Len kSize bandSize = Returned (a, b) ->
     lacks NUL (to_string_double (out_percentIdentity (cigar_stats a b)))) ->
  lacks NUL res
  /\ read_c_string (cppStringToCString res) = res
  /\ length (cppStringToCString res) = S (String.length res).
Proof.
  intros Hres Hpct.
  assert (Hl : lacks NUL res).
  { destruct (decide (res = ""%string)) as [->|Hne]; [done|].
    destruct (semiGlobalAlign_rows _ _ _ _ _ _ _ _ Hres Hne) as (a & b & Hrows & _ & ->).
    apply lacks_NUL_finalString; [|by apply Hpct].
    unfold cigar_stats. rewrite cigar_string_reported. apply lacks_NUL_render. }
  split; [done|]. unfold cppStringToCString. split.
  - by apply read_c_string_app.
  - rewrite length_app. simpl. clear. induction res as [|c s IH]; simpl in *; lia.
Qed.

End CString.

Lemma result_survives_c_string_witness :
  let world := scripted [mkSeed 0 0 3 3] ("ACGT-ACGT", "ACGTTACGT")%string in
  let res := "M4D1M4,0,8,0,9,9,8,0,,0,,1,4,1,88.888889,0"%string in
  lacks NUL res
  /\ read_c_string (cppStringToCString res) = res
  /\ length (cppStringToCString res) = S (String.length res).
Proof.
  intros world.
  apply (@result_survives_c_string world "ACGTACGT" "ACGTTACGT" 8 9 3 10 (S754_zero false)).
  - by vm_compute.
  - intros a b H. vm_compute in H. injection H as <- <-.
    vm_compute. repeat split; discriminate.
Defined.
(** ** The shape of the CIGAR of an alignment that starts *)

Lemma classify_app (b : bool) (p q : list (ascii * ascii)) :
  classify b (p ++ q) = classify b p ++ classify (b || existsb both_bases p) q.
Proof.
  revert b. induction p as [|c p IH]; intros b; simpl.
  - by rewrite orb_false_r.
  - rewrite IH. by rewrite orb_assoc.
Qed.

Lemma unstarted_classify (pre : list (ascii * ascii)) :
  existsb both_bases pre = false ->
  Forall (fun t : CigarType => t = CLIP \/ t = NOTHING) (classify false pre).
Proof.
  induction pre as [|[b1 b2] pre IH]; intros Hex; [constructor|].
  simpl in Hex. apply orb_false_iff in Hex as [Hc Hpre].
  simpl. rewrite Hc. simpl. constructor; [|by apply IH].
  unfold both_bases in Hc. simpl in Hc. unfold getCigarType.
  destruct (Ascii.eqb b1 gap), (Ascii.eqb b2 gap); simpl in *; auto; done.
Qed.

Lemma rle_rev_head (ts : list CigarType) (t : CigarType) :
  last ts = Some t ->
  exists (n : Z) (acc : list (CigarType * Z)), rle_rev ts = (t, n) :: acc.
Proof.
  intros (ts' & ->)%last_Some. rewrite rle_rev_snoc.
  destruct (rle_rev ts') as [|[t' n'] acc]; simpl; [by eexists _, _|].
  case_bool_decide; [subst t'|]; by eexists _, _.
Qed.

Lemma rle_rev_app (ts1 ts2 : list CigarType) :
  (forall t1 t2, last ts1 = Some t1 -> head ts2 = Some t2 -> t1 <> t2) ->
  rle_rev (ts1 ++ ts2) = rle_rev ts2 ++ rle_rev ts1.
Proof.
  induction ts2 as [|x ts2 IH] using rev_ind; intros Hb.
  - by rewrite app_nil_r.
  - rewrite app_assoc, !rle_rev_snoc.
    destruct ts2 as [|y ts2].
    + rewrite app_nil_r. simpl.
      destruct (last ts1) as [t1|] eqn:El.
      * destruct (rle_rev_head _ _ El) as (n & acc & ->). simpl.
        rewrite bool_decide_eq_false_2; [done|].
        intros ->. by apply (Hb t1 t1).
      * apply last_None in El as ->. done.
    + rewrite IH by (intros t1 t2 H1 H2; by apply Hb).
      destruct (rle_rev (y :: ts2)) as [|[t' n'] acc] eqn:E.
      { by apply rle_rev_nil in E. }
      simpl. by case_bool_decide.
Qed.

Lemma rle_rev_first (t : CigarType) (ts : list CigarType) :
  exists (n : Z) (acc : list (CigarType * Z)),
    rle_rev (t :: ts) = acc ++ [(t, n)] /\ 1 <= n.
Proof.
  induction ts as [|x ts IH] using rev_ind.
  - exists 1, []. done.
  - destruct IH as (n & acc & E & Hn).
    rewrite app_comm_cons, rle_rev_snoc, E.
    destruct acc as [|[t' n'] acc]; simpl.
    + case_bool_decide; [subst x; exists (n + 1), []|exists n, [(x, 1)]];
        split; try done; lia.
    + case_bool_decide; [exists n, ((t', n' + 1) :: acc)|exists n, ((x, 1) :: (t', n') :: acc)];
        done.
Qed.

Lemma tokens_of_app (r1 r2 : list (CigarType * Z)) :
  tokens_of (r1 ++ r2) = tokens_of r1 ++ tokens_of r2.
Proof. unfold tokens_of. apply omap_app. Qed.

Lemma reported_runs_split (pre post : list (ascii * ascii)) (col : ascii * ascii) :
  existsb both_bases pre = false ->
  both_bases col = true ->
  reported_runs (pre ++ col :: post) = runs_of pre ++ reported_runs (col :: post).
Proof.
  intros Hpre Hcol. unfold reported_runs, runs_of.
  rewrite classify_app, Hpre. simpl orb.
  rewrite rle_rev_app.
  - destruct (rle_rev (classify false (col :: post))) as [|[t n] acc] eqn:E.
    { by apply rle_rev_nil in E. }
    simpl. by rewrite rev_app_distr, app_assoc.
  - intros t1 t2 H1 H2. simpl in H2. rewrite Hcol in H2.
    apply last_Some_elem_of in H1.
    pose proof (unstarted_classify pre Hpre) as Hk.
    rewrite Forall_forall in Hk. specialize (Hk _ H1).
    destruct col as [b1 b2]. unfold both_bases in Hcol. simpl in Hcol, H2.
    unfold getCigarType in H2.
    destruct (Ascii.eqb b1 gap), (Ascii.eqb b2 gap); simpl in *; try done.
    injection H2 as <-. by destruct Hk as [-> | ->].
Qed.

Lemma reported_runs_first (col : ascii * ascii) (post : list (ascii * ascii)) :
  both_bases col = true ->
  exists (n : Z) (rest : list (CigarType * Z)),
    reported_runs (col :: post) = (MATCH, n) :: rest /\ 1 <= n.
Proof.
  intros Hcol. unfold reported_runs. simpl classify. rewrite Hcol.
  assert (Hm : getCigarType col.1 col.2 true = MATCH).
  { destruct col as [b1 b2]. unfold both_bases in Hcol. simpl in *.
    unfold getCigarType. by destruct (Ascii.eqb b1 gap), (Ascii.eqb b2 gap). }
  rewrite Hm. destruct (rle_rev_first MATCH (classify true post)) as (n & acc & -> & Hn).
  destruct acc as [|[t' n'] acc]; simpl.
  - by exists n, [].
  - rewrite rev_app_distr. simpl. by eexists n, _.
Qed.

(** X16.  The CIGAR of an alignment that starts: the S tokens of the columns to
    the left of the first column with a base in both rows, which add up to
    s1Start, followed by the CIGAR of the alignment from that column on,
    which begins with an M token. *)
Theorem cigar_leading_clips (pre post : list (ascii * ascii)) (col : ascii * ascii) :
  existsb both_bases pre = false ->
  both_bases col = true ->
  let r := cigar_stats_of (pre ++ col :: post) in
  let clips := tokens_of (runs_of pre) in
  exists (n : Z) (rest : list (ascii * Z)),
    parse_cigar (out_cigarString r) = Some (clips ++ ("M"%char, n) :: rest)
    /\ out_cigarString r
       = render (runs_of pre) +:+ out_cigarString (cigar_stats_of (col :: post))
    /\ Forall (fun tok : ascii * Z => tok.1 = "S"%char) clips
    /\ token_total "S" clips = out_s1Start r
    /\ 1 <= n
    /\ ("M"%char, n) :: rest = tokens_of (reported_runs (col :: post)).
Proof.
  intros Hpre Hcol. cbv zeta.
  destruct (cigar_string_tokens (pre ++ col :: post)) as (_ & Hparse & _).
  destruct (reported_runs_first col post Hcol) as (n & runs & Hfirst & Hn).
  destruct (starts_of_split pre post col Hpre Hcol) as [Hs1 _].
  destruct (unstarted_kinds pre Hpre) as (Hkm & Hki & Hkd & Hkc).
  assert (Hok : Forall token_ok (tokens_of (runs_of pre))).
  { apply tokens_of_ok. unfold runs_of. apply Forall_rev, rle_rev_positive. }
  assert (Htot : forall t c, op_letter t = Some c ->
            token_total c (tokens_of (runs_of pre)) = kind_count t (classify false pre)).
  { intros t c Hc. rewrite (token_total_tokens_of t) by done.
    unfold runs_of. by rewrite run_total_rev, run_total_rle_rev. }
  exists n, (tokens_of runs).
  rewrite Hparse, reported_runs_split, tokens_of_app, Hfirst by done.
  split; [done|]. split; [|split; [|split; [|split; [done|done]]]].
  - rewrite !cigar_string_reported, reported_runs_split, render_app by done. done.
  - pose proof (token_total_zero "M" _ Hok) as HnM.
    pose proof (token_total_zero "I" _ Hok) as HnI.
    pose proof (token_total_zero "D" _ Hok) as HnD.
    rewrite (Htot MATCH) in HnM by done. rewrite (Htot INSERTION) in HnI by done.
    rewrite (Htot DELETION) in HnD by done.
    specialize (HnM Hkm). specialize (HnI Hki). specialize (HnD Hkd).
    rewrite Forall_forall in Hok, HnM, HnI, HnD. apply Forall_forall.
    intros tok Hin. destruct (Hok tok Hin) as [Hc _].
    specialize (HnM tok Hin). specialize (HnI tok Hin). specialize (HnD tok Hin).
    repeat (apply elem_of_cons in Hc as [Hc|Hc]; [congruence|]).
    by apply elem_of_nil in Hc.
  - rewrite (Htot CLIP) by done. by rewrite Hkc, Hs1.
Qed.

Lemma cigar_leading_clips_witness :
  let pre := [("A", "-"); ("-", "C"); ("T", "-")]%char in
  let post := [("T", "-"); ("C", "C"); ("-", "A")]%char in
  let r := cigar_stats_of (pre ++ ("G", "G")%char :: post) in
  let clips := tokens_of (runs_of pre) in
  exists (n : Z) (rest : list (ascii * Z)),
    parse_cigar (out_cigarString r) = Some (clips ++ ("M"%char, n) :: rest)
    /\ out_cigarString r
       = render (runs_of pre)
         +:+ out_cigarString (cigar_stats_of (("G", "G")%char :: post))
    /\ Forall (fun tok : ascii * Z => tok.1 = "S"%char) clips
    /\ token_total "S" clips = out_s1Start r
    /\ 1 <= n
    /\ ("M"%char, n) :: rest = tokens_of (reported_runs (("G", "G")%char :: post)).
Proof.
  apply (cigar_leading_clips [("A", "-"); ("-", "C"); ("T", "-")]%char
           [("T", "-"); ("C", "C"); ("-", "A")]%char ("G", "G")%char); reflexivity.
Defined.
(** ** A tolerance that is not a number *)

(** X17.  The length check compares with [<] and [>] only, which are false on a
    NaN: with a NaN for allowedLengthDiscrepancy both bounds are NaN and no
    seed chain is rejected, and with plus infinity the bounds are the two
    infinities and no seed chain is rejected either. *)
Theorem ratio_filter_unbounded_tolerance (seedChain : list TSeed) (ald : double) :
  ald = S754_nan \/ ald = S754_infinity false ->
  ratio_out_of_tolerance seedChain ald = false.
Proof.
  intros [-> | ->]; unfold ratio_out_of_tolerance, dlt, dgt.
  - change (minRatio S754_nan) with S754_nan.
    change (maxRatio S754_nan) with S754_nan.
    by destruct (ratio seedChain).
  - change (minRatio (S754_infinity false)) with (S754_infinity true).
    change (maxRatio (S754_infinity false)) with (S754_infinity false).
    by destruct (ratio seedChain) as [[]|[]| |[] m e].
Qed.

Lemma ratio_filter_unbounded_tolerance_witness :
  ratio_out_of_tolerance [mkSeed 0 0 900 10] S754_nan = false.
Proof. apply (ratio_filter_unbounded_tolerance [mkSeed 0 0 900 10] S754_nan). by left. Defined.
